(** * proto_to_sql: schema translation and reconciliation

    A shallow embedding of [scripts/proto_to_sql.py]: the table model
    ([Column], [Table]), the declaration translator
    ([ProtobufToSQLConverter.parse_proto_file]), the reconciler
    ([SchemaManager.generate_migration] and its two statement builders) and
    the per-file driver ([SchemaManager.process_proto_file], [main]).

    Conventions of the embedding.
    - Python [str] is [string] (ASCII); [str.lower] and [str.strip] are
      written out on ASCII characters.
    - A Python [dict] that the code iterates ([self.tables], [new_cols]) is
      an insertion-ordered association list with the assignment semantics
      of [d[k] = v]; a [dict] that is only looked up ([current_tables],
      [current_cols]) is a [gmap].
    - The regular expressions of the parser are not modelled: the
      translator takes the sequence of matches they produce.
    - Iterating a Python [set] of strings visits the elements in an order
      fixed by the string hashes of the running process, not by the
      program's inputs; the reconciler therefore takes that order as an
      explicit argument.
    - The database cursor is a partial function on an abstract database
      state; an exception is an explicit outcome. *)

From Stdlib Require Import Ascii String DecimalString DecimalNat.
From stdpp Require Import base list strings gmap fin_maps.

Local Open Scope string_scope.
Local Open Scope list_scope.
Local Open Scope stdpp_scope.

(** ** Strings *)

Module Str.

Definition is_upper (c : ascii) : bool :=
  (65 <=? nat_of_ascii c)%nat && (nat_of_ascii c <=? 90)%nat.

Definition lower_char (c : ascii) : ascii :=
  if is_upper c then ascii_of_nat (nat_of_ascii c + 32) else c.

(** [str.lower()] *)
Fixpoint lower (s : string) : string :=
  match s with
  | EmptyString => EmptyString
  | String c s' => String (lower_char c) (lower s')
  end.

Definition is_lower (c : ascii) : bool :=
  (97 <=? nat_of_ascii c)%nat && (nat_of_ascii c <=? 122)%nat.

Definition upper_char (c : ascii) : ascii :=
  if is_lower c then ascii_of_nat (nat_of_ascii c - 32) else c.

(** [str.upper()] *)
Fixpoint upper (s : string) : string :=
  match s with
  | EmptyString => EmptyString
  | String c s' => String (upper_char c) (upper s')
  end.

(** The characters [str.strip()] removes: tab, line feed, vertical tab,
    form feed, carriage return, the four separators 0x1c-0x1f and space. *)
Definition is_space (c : ascii) : bool :=
  let n := nat_of_ascii c in
  ((9 <=? n)%nat && (n <=? 13)%nat)
  || ((28 <=? n)%nat && (n <=? 32)%nat).

Fixpoint lstrip (s : string) : string :=
  match s with
  | EmptyString => EmptyString
  | String c s' => if is_space c then lstrip s' else s
  end.

Fixpoint rstrip (s : string) : string :=
  match s with
  | EmptyString => EmptyString
  | String c s' =>
      match rstrip s' with
      | EmptyString => if is_space c then EmptyString else String c EmptyString
      | r => String c r
      end
  end.

(** [str.strip()] *)
Definition strip (s : string) : string := rstrip (lstrip s).

(** [sep.join(parts)] *)
Fixpoint join (sep : string) (parts : list string) : string :=
  match parts with
  | [] => EmptyString
  | [p] => p
  | p :: ps => p +:+ sep +:+ join sep ps
  end.

(** [str(n)] for a non-negative integer *)
Definition of_nat (n : nat) : string :=
  NilEmpty.string_of_uint (Nat.to_uint n).

(** [p in s]: [p] occurs in [s] as a contiguous substring. *)
Fixpoint contains (p s : string) : bool :=
  String.prefix p s
  || match s with
     | EmptyString => false
     | String _ s' => contains p s'
     end.

Definition nl : string := String (ascii_of_nat 10) EmptyString.


(** [c in p] for a single character. *)
Fixpoint has_char (c : ascii) (p : string) : bool :=
  match p with
  | EmptyString => false
  | String c' p' => Ascii.eqb c c' || has_char c p'
  end.

(** A non-empty string as its part before the last character and that
    character. *)
Fixpoint split_last (s : string) : option (string * ascii) :=
  match s with
  | EmptyString => None
  | String c s' =>
      match split_last s' with
      | None => Some (EmptyString, c)
      | Some (r, l) => Some (String c r, l)
      end
  end.

End Str.

(** ** Schema model *)

Module Column.
Record t : Type := mk
  { name : string;
    data_type : string;
    is_nullable : bool;
    is_primary_key : bool }.
End Column.
Abbreviation Column := Column.t.

Module Table.
Record t : Type := mk
  { name : string;
    columns : list Column;
    foreign_keys : list string }.
End Table.
Abbreviation Table := Table.t.

(** ** Insertion-ordered dictionaries

    [d[k] = v] keeps the position of a key that is already present and
    appends a new key at the end; iteration follows that order. *)

Module ODict.
Section ODict.
Context {V : Type}.

Definition t := list (string * V).

Fixpoint set (k : string) (v : V) (d : list (string * V)) : list (string * V) :=
  match d with
  | [] => [(k, v)]
  | (k', v') :: d' =>
      if String.eqb k k' then (k, v) :: d' else (k', v') :: set k v d'
  end.

Fixpoint get (k : string) (d : list (string * V)) : option V :=
  match d with
  | [] => None
  | (k', v') :: d' => if String.eqb k k' then Some v' else get k d'
  end.

Definition keys (d : list (string * V)) : list string := d.*1.

(** A sequence of assignments applied to [d], first to last. *)
Definition set_all (ws : list (string * V)) (d : list (string * V)) :
  list (string * V) :=
  fold_left (fun acc kv => set kv.1 kv.2 acc) ws d.

(** [{key(x): x for x in xs}] *)
Definition of_list (key : V -> string) (xs : list V) : list (string * V) :=
  set_all (map (fun x => (key x, x)) xs) [].

(** The last assignment to [k] in [ws], if any. *)
Fixpoint last_write (k : string) (ws : list (string * V)) : option V :=
  match ws with
  | [] => None
  | (k', v) :: ws' =>
      match last_write k ws' with
      | Some v' => Some v'
      | None => if String.eqb k k' then Some v else None
      end
  end.

End ODict.
End ODict.

(** ** Declaration translator ([class ProtobufToSQLConverter]) *)

Module ProtobufToSQLConverter.

Definition TYPE_MAPPING : list (string * string) :=
  [ ("double", "DOUBLE PRECISION");
    ("float", "REAL");
    ("int32", "INTEGER");
    ("int64", "BIGINT");
    ("uint32", "INTEGER");
    ("uint64", "BIGINT");
    ("sint32", "INTEGER");
    ("sint64", "BIGINT");
    ("fixed32", "INTEGER");
    ("fixed64", "BIGINT");
    ("sfixed32", "INTEGER");
    ("sfixed64", "BIGINT");
    ("bool", "BOOLEAN");
    ("string", "TEXT");
    ("bytes", "BYTEA");
    ("timestamp", "TIMESTAMP") ].

(** [TYPE_MAPPING.get(field_type, 'TEXT')] *)
Definition sql_type (field_type : string) : string :=
  default "TEXT" (ODict.get field_type TYPE_MAPPING).

(** Group 1 of the field pattern, [(repeated|optional|required)?]. *)
Inductive Modifier : Type := repeated | optional | required.

(** A line of a message body on which the field pattern matched
    ([field_match.groups()], without the unused field number). *)
Record FieldMatch : Type := mkField
  { modifier : option Modifier;
    field_type : string;
    field_name : string }.

(** One match of the message pattern: the name and, for each line of the
    body, the field match if the line is a field ([None] for blank lines,
    comments and lines the field pattern rejects, all of which are
    skipped). *)
Record Message : Type := mkMessage
  { message_name : string;
    message_body : list (option FieldMatch) }.

Definition is_required (m : option Modifier) : bool :=
  match m with
  | Some required => true
  | _ => false
  end.

Definition _handle_repeated_field (tables : list (string * Table))
    (array_table_name field_type parent_table : string) :
    list (string * Table) :=
  let columns :=
    [ Column.mk "id" "SERIAL" false true;
      Column.mk "parent_id" "BIGINT" false false;
      Column.mk "value" (sql_type field_type) false false ] in
  let foreign_keys :=
    [ "FOREIGN KEY (parent_id) REFERENCES " +:+ parent_table +:+ "(id)" ] in
  ODict.set array_table_name
    (Table.mk array_table_name columns foreign_keys) tables.

(** The table name of a message: the base for the message called [root]
    (in any letter case), otherwise base, underscore, lower-cased name. *)
Definition table_name_of (table_name_base message_name : string) : string :=
  if String.eqb (Str.lower message_name) "root"
  then table_name_base
  else table_name_base +:+ "_" +:+ Str.lower message_name.

(** One iteration of the loop over the lines of a message body; the state
    is [self.tables] and the local list [columns]. *)
Definition parse_line (table_name : string)
    (st : list (string * Table) * list Column) (line : option FieldMatch) :
    list (string * Table) * list Column :=
  match line with
  | None => st
  | Some fm =>
      match modifier fm with
      | Some repeated =>
          (_handle_repeated_field st.1
             (table_name +:+ "_" +:+ field_name fm) (field_type fm) table_name,
           st.2)
      | m =>
          (st.1,
           st.2 ++ [ Column.mk (field_name fm) (sql_type (field_type fm))
                       (negb (is_required m)) false ])
      end
  end.

(** One iteration of the loop over the message matches. *)
Definition parse_message (table_name_base : string)
    (tables : list (string * Table)) (msg : Message) : list (string * Table) :=
  let table_name := table_name_of table_name_base (message_name msg) in
  let st :=
    fold_left (parse_line table_name) (message_body msg)
      (tables, [ Column.mk "id" "SERIAL" false true ]) in
  ODict.set table_name (Table.mk table_name st.2 []) st.1.

(** [parse_proto_file], given the stem of the file name and the message
    matches found in the file. *)
Definition parse_proto_file (stem : string) (messages : list Message) :
    list (string * Table) :=
  let table_name_base := Str.lower stem in
  fold_left (parse_message table_name_base) messages [].

End ProtobufToSQLConverter.

(** ** Reconciler ([class SchemaManager]) *)

Module SchemaManager.

Definition nullable_kw (is_nullable : bool) : string :=
  if is_nullable then "NULL" else "NOT NULL".

Definition column_def (col : Column) : string :=
  let nullable := nullable_kw (Column.is_nullable col) in
  let pk := if Column.is_primary_key col then "PRIMARY KEY" else "" in
  Str.strip (Column.name col +:+ " " +:+ Column.data_type col +:+ " "
             +:+ nullable +:+ " " +:+ pk).

Definition create_table_sql (table_name : string) (column_defs : list string) :
    string :=
  Str.nl +:+ "            CREATE TABLE " +:+ table_name +:+ " (" +:+ Str.nl
  +:+ "                " +:+ Str.join "," column_defs +:+ Str.nl
  +:+ "            );" +:+ Str.nl
  +:+ "            ".

Definition _create_table_statements (table : Table) : list string :=
  let column_defs := map column_def (Table.columns table) in
  [ create_table_sql (Table.name table) column_defs ]
  ++ map (fun fk =>
            "ALTER TABLE " +:+ Table.name table +:+ " ADD CONSTRAINT fk_"
            +:+ Table.name table +:+ " " +:+ fk +:+ ";")
         (Table.foreign_keys table).

(** [{col.name: col for col in current.columns}], only ever looked up. *)
Definition cols_by_name (cols : list Column) : gmap string Column :=
  foldl (fun m col => <[Column.name col := col]> m) ∅ cols.

Definition add_column_sql (table_name col_name : string) (col : Column) :
    string :=
  "ALTER TABLE " +:+ table_name +:+ " ADD COLUMN " +:+ col_name +:+ " "
  +:+ Column.data_type col +:+ " " +:+ nullable_kw (Column.is_nullable col)
  +:+ ";".

Definition alter_column_sql (table_name col_name : string) (new_col : Column) :
    string :=
  "ALTER TABLE " +:+ table_name +:+ " ALTER COLUMN " +:+ col_name +:+ " "
  +:+ "TYPE " +:+ Column.data_type new_col +:+ " USING " +:+ col_name +:+ "::"
  +:+ Column.data_type new_col +:+ ", "
  +:+ "ALTER COLUMN " +:+ col_name +:+ " SET "
  +:+ nullable_kw (Column.is_nullable new_col) +:+ ";".

(** The body of the last loop: the constraint name carries the number of
    statements collected so far for this table. *)
Definition add_fk (table_name : string) (statements : list string)
    (fk : string) : list string :=
  statements
  ++ [ "ALTER TABLE " +:+ table_name +:+ " ADD CONSTRAINT fk_" +:+ table_name
       +:+ "_" +:+ Str.of_nat (length statements) +:+ " " +:+ fk +:+ ";" ].

(** [set_iter] is the order in which the running process iterates a set of
    strings. *)
Definition _alter_table_statements (set_iter : gset string -> list string)
    (current new : Table) : list string :=
  let current_cols := cols_by_name (Table.columns current) in
  let new_cols := ODict.of_list Column.name (Table.columns new) in
  let added :=
    flat_map (fun '(col_name, col) =>
                match current_cols !! col_name with
                | None => [ add_column_sql (Table.name current) col_name col ]
                | Some _ => []
                end) new_cols in
  let modified :=
    flat_map (fun '(col_name, new_col) =>
                match current_cols !! col_name with
                | Some current_col =>
                    if negb (String.eqb (Column.data_type new_col)
                                        (Column.data_type current_col))
                       || negb (Bool.eqb (Column.is_nullable new_col)
                                         (Column.is_nullable current_col))
                    then [ alter_column_sql (Table.name current) col_name new_col ]
                    else []
                | None => []
                end) new_cols in
  let current_fks : gset string := list_to_set (Table.foreign_keys current) in
  let new_fks : gset string := list_to_set (Table.foreign_keys new) in
  fold_left (add_fk (Table.name current)) (set_iter (new_fks ∖ current_fks))
    (added ++ modified).

(** The statements one declared table contributes. *)
Definition table_statements (set_iter : gset string -> list string)
    (current_tables : gmap string Table) (entry : string * Table) :
    list string :=
  match current_tables !! entry.1 with
  | None => _create_table_statements entry.2
  | Some current_table => _alter_table_statements set_iter current_table entry.2
  end.

Definition generate_migration (set_iter : gset string -> list string)
    (current_tables : gmap string Table) (new_tables : list (string * Table)) :
    list string :=
  flat_map (table_statements set_iter current_tables) new_tables.

(** *** Applying a migration

    The connection holds the committed database state and the state of the
    open transaction. [execute db statement] is [cur.execute(statement)]:
    [None] when the database rejects the statement and the call raises. *)

Inductive Outcome (A : Type) : Type :=
  | Returned (a : A)
  | Raised.
Arguments Returned {A} a.
Arguments Raised {A}.

Record Conn (DB : Type) : Type := mkConn
  { committed : DB;
    working : DB }.
Arguments mkConn {DB} _ _.
Arguments committed {DB} _.
Arguments working {DB} _.

Section Execution.
Context {DB : Type}.
Variable execute : DB -> string -> option DB.
Variable set_iter : gset string -> list string.
(** [self.db_schema.current_tables], read once when the manager is built. *)
Variable current_tables : gmap string Table.

Definition commit (conn : Conn DB) : Conn DB :=
  mkConn (working conn) (working conn).

Definition rollback (conn : Conn DB) : Conn DB :=
  mkConn (committed conn) (committed conn).

(** [for statement in migration_statements: cur.execute(statement)] *)
Fixpoint execute_all (statements : list string) (db : DB) : option DB :=
  match statements with
  | [] => Some db
  | statement :: rest =>
      match execute db statement with
      | Some db' => execute_all rest db'
      | None => None
      end
  end.

(** A proto file is the stem of its name and the message matches in it;
    the path of the written migration file is represented by that stem. *)
Definition process_proto_file (conn : Conn DB)
    (proto_file : string * list ProtobufToSQLConverter.Message) :
    Outcome (option string) * Conn DB :=
  let new_tables :=
    ProtobufToSQLConverter.parse_proto_file proto_file.1 proto_file.2 in
  let migration_statements :=
    generate_migration set_iter current_tables new_tables in
  match migration_statements with
  | [] => (Returned None, conn)
  | _ =>
      match execute_all migration_statements (working conn) with
      | Some db => (Returned (Some proto_file.1), commit (mkConn (committed conn) db))
      | None => (Raised, rollback conn)
      end
  end.

(** The loop of [main] over the proto files. *)
Fixpoint main_loop
    (proto_files : list (string * list ProtobufToSQLConverter.Message))
    (conn : Conn DB) (migration_files : list string) :
    Outcome (list string) * Conn DB :=
  match proto_files with
  | [] => (Returned migration_files, conn)
  | proto_file :: rest =>
      match process_proto_file conn proto_file with
      | (Returned (Some sql_file), conn') =>
          main_loop rest conn' (migration_files ++ [sql_file])
      | (Returned None, conn') => main_loop rest conn' migration_files
      | (Raised, conn') => (Raised, conn')
      end
  end.

Definition main
    (proto_files : list (string * list ProtobufToSQLConverter.Message))
    (conn : Conn DB) : Outcome (list string) * Conn DB :=
  main_loop proto_files conn [].

End Execution.

End SchemaManager.

(** ** The translator as a sequence of dictionary assignments

    [parse_proto_file] only ever assigns into [self.tables]; the
    definitions below list those assignments in program order. They are
    related to the translator by [parse_proto_file_writes]. *)

Module Writes.
Import ProtobufToSQLConverter.

(** The columns that the non-repeated fields of a body append. *)
Definition scalar_columns (body : list (option FieldMatch)) : list Column :=
  flat_map (fun line =>
              match line with
              | Some (mkField (Some repeated) _ _) => []
              | Some (mkField m field_type field_name) =>
                  [ Column.mk field_name (sql_type field_type)
                      (negb (is_required m)) false ]
              | None => []
              end) body.

(** The child tables that the repeated fields of a body assign. *)
Definition body_writes (table_name : string)
    (body : list (option FieldMatch)) : list (string * Table) :=
  flat_map (fun line =>
              match line with
              | Some (mkField (Some repeated) field_type field_name) =>
                  _handle_repeated_field []
                    (table_name +:+ "_" +:+ field_name) field_type table_name
              | _ => []
              end) body.

Definition message_writes (table_name_base : string) (msg : Message) :
    list (string * Table) :=
  let table_name := table_name_of table_name_base (message_name msg) in
  body_writes table_name (message_body msg)
  ++ [ (table_name,
        Table.mk table_name
          (Column.mk "id" "SERIAL" false true
           :: scalar_columns (message_body msg)) []) ].

Definition writes (table_name_base : string) (messages : list Message) :
    list (string * Table) :=
  flat_map (message_writes table_name_base) messages.

End Writes.

(** ** Predicates used in the statements *)

(** The first column is the synthesized key and no other column is a
    primary key. *)
Definition single_id_key (t : Table) : Prop :=
  exists rest,
    Table.columns t = Column.mk "id" "SERIAL" false true :: rest
    /\ Forall (fun c => Column.is_primary_key c = false) rest
    /\ filter (fun c => Column.is_primary_key c = true) (Table.columns t)
       = [ Column.mk "id" "SERIAL" false true ].

(** What every run guarantees about the iteration of a set: each element
    is visited once, in some order. *)
Definition iterates_sets (set_iter : gset string -> list string) : Prop :=
  forall X, set_iter X ≡ₚ elements X.

(** The declared table has the columns of the current one, in the same
    order, and the same set of foreign keys. *)
Definition same_table (declared current : Table) : Prop :=
  Table.columns declared = Table.columns current
  /\ forall fk,
       fk ∈ Table.foreign_keys declared <-> fk ∈ Table.foreign_keys current.

(** The foreign keys of the declared table that the current one lacks. *)
Definition new_foreign_keys (declared current : Table) : gset string :=
  list_to_set (Table.foreign_keys declared)
  ∖ list_to_set (Table.foreign_keys current).

(** The text [DROP] does not occur in [s]. *)
Definition drop_free (s : string) : Prop := Str.contains "DROP" s = false.

(** No name, column type or foreign key of the table mentions [DROP]. *)
Definition drop_free_table (t : Table) : Prop :=
  drop_free (Table.name t)
  /\ Forall (fun c => drop_free (Column.name c)
                      /\ drop_free (Column.data_type c)) (Table.columns t)
  /\ Forall drop_free (Table.foreign_keys t).

(** ** A test database and two source files *)

(** A database that records the statements it accepted and rejects any
    statement that mentions the type REAL. *)
Definition rejects_real (db : list string) (statement : string) :
    option (list string) :=
  if Str.contains "REAL" statement then None else Some (db ++ [statement]).

Definition file_a : string * list ProtobufToSQLConverter.Message :=
  ("a", [ ProtobufToSQLConverter.mkMessage "Root" [ Some (ProtobufToSQLConverter.mkField None "float" "ratio") ] ]).

Definition file_b : string * list ProtobufToSQLConverter.Message :=
  ("b", [ ProtobufToSQLConverter.mkMessage "Root" [ Some (ProtobufToSQLConverter.mkField None "string" "label") ] ]).

(** ** Live schema reader ([class DatabaseSchema])

    The three catalogue queries are answered by the database; the reader
    is modelled on their results: the table names, and for each table the
    rows of the column query and of the foreign-key query. *)

Module DatabaseSchema.

(** A row of the column query: [column_name], [data_type],
    [is_nullable] (the text YES or NO) and [is_primary_key]. *)
Record ColumnRow : Type := mkColumnRow
  { column_name : string;
    data_type : string;
    is_nullable : string;
    is_primary_key : bool }.

(** A row of the foreign-key query. *)
Record ForeignKeyRow : Type := mkForeignKeyRow
  { constraint_name : string;
    fk_column_name : string;
    foreign_table_name : string;
    foreign_column_name : string }.

Definition column_of_row (row : ColumnRow) : Column :=
  Column.mk (column_name row) (Str.upper (data_type row))
    (String.eqb (is_nullable row) "YES") (is_primary_key row).

Definition foreign_key_of_row (row : ForeignKeyRow) : string :=
  "FOREIGN KEY (" +:+ fk_column_name row +:+ ") REFERENCES "
  +:+ foreign_table_name row +:+ "(" +:+ foreign_column_name row +:+ ")".

Definition _get_current_schema (db_tables : list string)
    (column_rows : string -> list ColumnRow)
    (foreign_key_rows : string -> list ForeignKeyRow) : gmap string Table :=
  foldl (fun tables table_name =>
           <[table_name :=
               Table.mk table_name
                 (map column_of_row (column_rows table_name))
                 (map foreign_key_of_row (foreign_key_rows table_name))]>
             tables)
        ∅ db_tables.

End DatabaseSchema.

(** ** Migration transcript ([class SQLFileManager]) *)

Module SQLFileManager.

(** [write_migration], given the two readings of the clock (the formatted
    time stamp of the file name and the ISO time of the header): the name
    of the file under [sql_dir] and the text written to it, or [None]
    when there is nothing to write. *)
Definition write_migration (timestamp generated_at proto_name : string)
    (statements : list string) : option (string * string) :=
  match statements with
  | [] => None
  | _ =>
      let filename := timestamp +:+ "_" +:+ proto_name +:+ "_migration.sql" in
      let f := "" in
      let f := f +:+ "-- Auto-generated migration from protobuf" +:+ Str.nl in
      let f := f +:+ "-- Proto: " +:+ proto_name +:+ Str.nl in
      let f := f +:+ "-- Generated at: " +:+ generated_at +:+ Str.nl +:+ Str.nl in
      let f := f +:+ "BEGIN;" +:+ Str.nl +:+ Str.nl in
      let f :=
        fold_left (fun f statement => f +:+ statement +:+ Str.nl) statements f in
      let f := f +:+ Str.nl +:+ "COMMIT;" +:+ Str.nl in
      Some (filename, f)
  end.

End SQLFileManager.

(** ** Configuration ([class ConfigManager]) *)

Module ConfigManager.

(** [load_db_config] on the mapping that [yaml.safe_load] returns (a
    mapping of sections to mappings of settings); [None] when a
    subscript raises [KeyError], which the function re-raises. *)
Definition load_db_config {V : Type} (config : gmap string (gmap string V)) :
    option (gmap string V) :=
  match config !! "database" with
  | None => None
  | Some database =>
      match database !! "name", database !! "user", database !! "password",
            database !! "host", database !! "port" with
      | Some name, Some user, Some password, Some host, Some port =>
          Some (<["port" := port]>
                  (<["host" := host]>
                     (<["password" := password]>
                        (<["user" := user]> {[ "dbname" := name ]}))))
      | _, _, _, _, _ => None
      end
  end.

End ConfigManager.

(** ** Further predicates *)

(** A row of the column query reports the declared column: same name,
    the declared type in any letter case, the declared nullability. *)
Definition row_reports (c : Column) (row : DatabaseSchema.ColumnRow) : Prop :=
  DatabaseSchema.column_name row = Column.name c
  /\ Str.upper (DatabaseSchema.data_type row) = Column.data_type c
  /\ DatabaseSchema.is_nullable row
     = (if Column.is_nullable c then "YES" else "NO").

(** The check of [_alter_table_statements] on a pair of same-named
    columns. *)
Definition column_differs (new_col current_col : Column) : bool :=
  negb (String.eqb (Column.data_type new_col) (Column.data_type current_col))
  || negb (Bool.eqb (Column.is_nullable new_col)
                    (Column.is_nullable current_col)).

(** The statement of [add_fk] whose constraint carries the number [i]. *)
Definition add_constraint_sql (table_name : string) (i : nat) (fk : string) :
    string :=
  "ALTER TABLE " +:+ table_name +:+ " ADD CONSTRAINT fk_" +:+ table_name
  +:+ "_" +:+ Str.of_nat i +:+ " " +:+ fk +:+ ";".

(** The statements a proto file gives rise to. *)
Definition file_statements (set_iter : gset string -> list string)
    (current_tables : gmap string Table)
    (proto_file : string * list ProtobufToSQLConverter.Message) : list string :=
  SchemaManager.generate_migration set_iter current_tables
    (ProtobufToSQLConverter.parse_proto_file proto_file.1 proto_file.2).

(** ** Removal phrases *)







(** * Properties *)

(** ** Ordered dictionaries *)

Section ODictFacts.
Context {V : Type}.
Implicit Types (d ws : list (string * V)) (k : string) (v : V).

Lemma odict_get_set_eq k v d : ODict.get k (ODict.set k v d) = Some v.
Proof.
  induction d as [|[k' v'] d IH]; simpl.
  - by rewrite String.eqb_refl.
  - destruct (String.eqb k k') eqn:E; simpl; rewrite ?String.eqb_refl, ?E; done.
Qed.

Lemma odict_get_set_ne k k' v d :
  k <> k' -> ODict.get k' (ODict.set k v d) = ODict.get k' d.
Proof.
  intros Hne. induction d as [|[k0 v0] d IH]; simpl.
  - apply String.eqb_neq in Hne. rewrite String.eqb_sym in Hne. by rewrite Hne.
  - destruct (String.eqb k k0) eqn:E; simpl.
    + apply String.eqb_eq in E as <-.
      assert (String.eqb k' k = false) as ->; [|done].
      apply String.eqb_neq. congruence.
    + by rewrite IH.
Qed.



(** Reading a key after a run of assignments gives the last value
    assigned to it, or the old value if there was none. *)
Lemma odict_get_set_all k ws d :
  ODict.get k (ODict.set_all ws d)
  = match ODict.last_write k ws with
    | Some v => Some v
    | None => ODict.get k d
    end.
Proof.
  revert d. induction ws as [|[k' v'] ws IH]; intros d; simpl; [done|].
  rewrite IH. destruct (ODict.last_write k ws); [done|].
  destruct (String.eqb k k') eqn:E.
  - apply String.eqb_eq in E as ->. apply odict_get_set_eq.
  - apply odict_get_set_ne. apply String.eqb_neq in E. congruence.
Qed.

Lemma odict_set_all_app ws1 ws2 d :
  ODict.set_all (ws1 ++ ws2) d = ODict.set_all ws2 (ODict.set_all ws1 d).
Proof. unfold ODict.set_all. apply fold_left_app. Qed.

Lemma odict_elem_of_set k v k' v' d :
  (k', v') ∈ ODict.set k v d -> (k', v') = (k, v) \/ (k', v') ∈ d.
Proof.
  induction d as [|[k0 v0] d IH]; simpl.
  - intros ?%list_elem_of_singleton. by left.
  - destruct (String.eqb k k0).
    + intros [->|?]%elem_of_cons; [by left|right; by apply elem_of_cons; right].
    + intros [->|H]%elem_of_cons; [right; apply elem_of_cons; by left|].
      destruct (IH H) as [?|?]; [by left|right; apply elem_of_cons; by right].
Qed.

Lemma odict_elem_of_set_all k v ws d :
  (k, v) ∈ ODict.set_all ws d -> (k, v) ∈ ws \/ (k, v) ∈ d.
Proof.
  revert d. induction ws as [|[k' v'] ws IH]; intros d; simpl; [by right|].
  intros [H|H]%IH.
  - left. apply elem_of_cons. by right.
  - apply odict_elem_of_set in H as [->|H]; [left; apply elem_of_cons; by left|by right].
Qed.

(** Assigning to a key that is absent appends the entry. *)
Lemma odict_set_fresh k v d : k ∉ d.*1 -> ODict.set k v d = d ++ [(k, v)].
Proof.
  induction d as [|[k' v'] d IH]; simpl; [done|].
  intros [Hne Hk]%not_elem_of_cons.
  apply String.eqb_neq in Hne. rewrite Hne. by rewrite IH.
Qed.

Lemma odict_set_all_fresh ws d :
  NoDup (d.*1 ++ ws.*1) -> ODict.set_all ws d = d ++ ws.
Proof.
  revert d. induction ws as [|[k v] ws IH]; intros d Hnd; simpl.
  - by rewrite app_nil_r.
  - simpl in Hnd. apply NoDup_app in Hnd as (Hd & Hdis & Hws).
    apply NoDup_cons in Hws as [Hk Hws].
    rewrite odict_set_fresh.
    + rewrite IH; [by rewrite <- app_assoc|].
      rewrite fmap_app. simpl. rewrite <- app_assoc. simpl.
      apply NoDup_app. split; [done|]. split; [|by apply NoDup_cons].
      intros x Hx. apply Hdis in Hx. done.
    + intros Hin. apply (Hdis _ Hin). apply elem_of_cons. by left.
Qed.

End ODictFacts.

(** ** Declaration translator *)

Section Translator.
Import ProtobufToSQLConverter Writes.

Lemma parse_line_fold table_name body tables columns :
  fold_left (parse_line table_name) body (tables, columns)
  = (ODict.set_all (body_writes table_name body) tables,
     columns ++ scalar_columns body).
Proof.
  revert tables columns.
  induction body as [|line body IH]; intros tables columns; simpl.
  - by rewrite app_nil_r.
  - destruct line as [[[[]|] ft fname]|]; simpl; rewrite IH; simpl;
      rewrite <- ?app_assoc; done.
Qed.

Lemma parse_message_writes base tables msg :
  parse_message base tables msg
  = ODict.set_all (message_writes base msg) tables.
Proof.
  unfold parse_message, message_writes.
  rewrite parse_line_fold, odict_set_all_app. done.
Qed.

Lemma parse_messages_writes base messages tables :
  fold_left (parse_message base) messages tables
  = ODict.set_all (writes base messages) tables.
Proof.
  revert tables. induction messages as [|msg messages IH]; intros tables; [done|].
  simpl. rewrite IH, parse_message_writes.
  unfold writes. simpl. by rewrite odict_set_all_app.
Qed.

(** The translator is the run of assignments [writes], applied to the
    empty dictionary. *)
Lemma parse_proto_file_writes stem messages :
  parse_proto_file stem messages
  = ODict.set_all (writes (Str.lower stem) messages) [].
Proof. apply parse_messages_writes. Qed.

Lemma body_writes_app table_name l1 l2 :
  body_writes table_name (l1 ++ l2)
  = body_writes table_name l1 ++ body_writes table_name l2.
Proof. unfold body_writes. by rewrite flat_map_app. Qed.


Lemma body_writes_single_id_key table_name body k t :
  (k, t) ∈ body_writes table_name body -> single_id_key t.
Proof.
  unfold body_writes. intros Hin.
  apply list_elem_of_In, in_flat_map in Hin as (line & _ & Hin).
  destruct line as [[[[]|] ft fname]|]; simpl in Hin; try done.
  destruct Hin as [[= <- <-]|[]].
  eexists. simpl. split; [done|]. split; [by repeat constructor|done].
Qed.

Lemma scalar_columns_not_key body :
  Forall (fun c => Column.is_primary_key c = false) (scalar_columns body).
Proof.
  unfold scalar_columns. induction body as [|line body IH]; simpl; [done|].
  apply Forall_app. split; [|done].
  destruct line as [[[[]|] ft fname]|]; by repeat constructor.
Qed.

Lemma writes_single_id_key base messages k t :
  (k, t) ∈ writes base messages -> single_id_key t.
Proof.
  unfold writes. intros Hin.
  apply list_elem_of_In, in_flat_map in Hin as (msg & _ & Hin).
  apply list_elem_of_In in Hin. unfold message_writes in Hin.
  apply elem_of_app in Hin as [Hin|Hin].
  - by eapply body_writes_single_id_key.
  - apply list_elem_of_singleton in Hin as [= _ ->].
    exists (scalar_columns (message_body msg)). simpl.
    pose proof (scalar_columns_not_key (message_body msg)) as Hnk.
    split; [done|]. split; [done|].
    rewrite filter_cons_True by done. f_equal.
    induction Hnk as [|c l Hc _ IH]; [done|].
    rewrite filter_cons_False; [done|]. by rewrite Hc.
Qed.

(** C8. Every table that translation produces, message table or
    repeated-field child table, has exactly one primary-key column: its
    first column, named [id], of type SERIAL and not nullable. *)
Theorem translated_tables_single_id_key stem messages :
  Forall (fun entry => single_id_key entry.2) (parse_proto_file stem messages).
Proof.
  apply Forall_forall. intros [k t] Hin. simpl.
  rewrite parse_proto_file_writes in Hin.
  apply odict_elem_of_set_all in Hin as [Hin|Hin].
  - by eapply writes_single_id_key.
  - by apply elem_of_nil in Hin.
Qed.



Lemma string_length_app (s t : string) :
  String.length (s +:+ t) = String.length s + String.length t.
Proof. induction s as [|c s IH]; simpl; [done|]. by rewrite IH. Qed.

Lemma append_suffix_neq (s t : string) : t <> "" -> s +:+ t <> s.
Proof.
  intros Ht Heq. apply (f_equal String.length) in Heq.
  rewrite string_length_app in Heq.
  destruct t; [done|]. simpl in Heq. lia.
Qed.

(** C6, as the code has it. Two messages whose names differ after
    lower-casing get distinct table names, for any file stem. *)
Theorem table_name_of_distinct table_name_base m1 m2 :
  Str.lower m1 <> Str.lower m2 ->
  table_name_of table_name_base m1 <> table_name_of table_name_base m2.
Proof.
  intros Hne. unfold table_name_of.
  destruct (String.eqb (Str.lower m1) "root") eqn:E1;
    destruct (String.eqb (Str.lower m2) "root") eqn:E2.
  - apply String.eqb_eq in E1, E2. congruence.
  - intros Heq. symmetry in Heq. by apply append_suffix_neq in Heq.
  - by apply append_suffix_neq.
  - intros Heq. apply String.app_inj in Heq. by injection Heq.
Qed.

Lemma table_name_of_distinct_witness :
  table_name_of "widget" "Root" <> table_name_of "widget" "Item".
Proof.
  apply (table_name_of_distinct "widget" "Root" "Item").
  vm_compute. discriminate.
Defined.

(** C6, as stated, fails: the distinct message names [Foo] and [FOO] of
    one source are given the same table name, [widget_foo]. *)
Lemma table_name_collision :
  "Foo" <> "FOO"
  /\ table_name_of (Str.lower "widget") "Foo" = "widget_foo"
  /\ table_name_of (Str.lower "widget") "FOO" = "widget_foo".
Proof. split; [discriminate|]. split; reflexivity. Qed.

Lemma writes_app base l1 l2 :
  writes base (l1 ++ l2) = writes base l1 ++ writes base l2.
Proof. unfold writes. by rewrite flat_map_app. Qed.




End Translator.

(** ** Reconciler *)

Section Reconciler.
Import ProtobufToSQLConverter SchemaManager Writes.
Implicit Types (set_iter : gset string -> list string).
Implicit Types (current_tables : gmap string Table).
Implicit Types (new_tables : list (string * Table)).

Lemma generate_migration_ext set_iter current_tables current_tables' new_tables :
  (forall k, k ∈ new_tables.*1 -> current_tables !! k = current_tables' !! k) ->
  generate_migration set_iter current_tables new_tables
  = generate_migration set_iter current_tables' new_tables.
Proof.
  unfold generate_migration.
  induction new_tables as [|[k t] new_tables IH]; intros Hagree; [done|].
  simpl. rewrite IH.
  - f_equal. unfold table_statements. simpl.
    rewrite (Hagree k); [done|]. simpl. apply elem_of_cons. by left.
  - intros k' Hk'. apply Hagree. simpl. apply elem_of_cons. by right.
Qed.

(** C10. The statement sequence depends on the current model only through
    the tables whose names are declared: two current models that agree on
    every declared name give the same statements, so a table that exists
    only in the current model contributes nothing (it can be removed from,
    or added to, the current model without changing the output). *)
Theorem current_only_tables_untouched set_iter current_tables new_tables :
  (forall current_tables',
     (forall k, k ∈ new_tables.*1 -> current_tables !! k = current_tables' !! k) ->
     generate_migration set_iter current_tables new_tables
     = generate_migration set_iter current_tables' new_tables)
  /\ (forall k,
        k ∉ new_tables.*1 ->
        generate_migration set_iter (delete k current_tables) new_tables
        = generate_migration set_iter current_tables new_tables)
  /\ (forall k t,
        k ∉ new_tables.*1 ->
        generate_migration set_iter (<[k:=t]> current_tables) new_tables
        = generate_migration set_iter current_tables new_tables).
Proof.
  split; [|split].
  - intros current_tables'. apply generate_migration_ext.
  - intros k Hk. apply generate_migration_ext. intros k' Hk'.
    apply lookup_delete_ne. congruence.
  - intros k t Hk. apply generate_migration_ext. intros k' Hk'.
    apply lookup_insert_ne. congruence.
Qed.

Lemma cols_by_name_lookup cols k :
  cols_by_name cols !! k
  = ODict.get k (ODict.of_list Column.name cols).
Proof.
  unfold cols_by_name, ODict.of_list. rewrite odict_get_set_all. simpl.
  change (@None Column) with ((∅ : gmap string Column) !! k).
  generalize (∅ : gmap string Column). induction cols as [|c cols IH]; intros m.
  - simpl. by destruct (m !! k).
  - simpl. rewrite IH.
    destruct (ODict.last_write k (map (fun x => (Column.name x, x)) cols)); [done|].
    destruct (String.eqb k (Column.name c)) eqn:E.
    + apply String.eqb_eq in E as ->. by rewrite lookup_insert_eq.
    + apply String.eqb_neq in E. rewrite lookup_insert_ne by congruence.
      by destruct (m !! k).
Qed.

Lemma odict_set_keys {V} k (v : V) d :
  k ∈ d.*1 -> (ODict.set k v d).*1 = d.*1.
Proof.
  induction d as [|[k' v'] d IH]; csimpl; [by intros ?%elem_of_nil|].
  destruct (String.eqb k k') eqn:E.
  - apply String.eqb_eq in E as ->. done.
  - intros [->|Hin]%elem_of_cons; [by rewrite String.eqb_refl in E|].
    csimpl. f_equal. by apply IH.
Qed.

Lemma odict_set_NoDup {V} k (v : V) d : NoDup d.*1 -> NoDup (ODict.set k v d).*1.
Proof.
  intros Hnd. destruct (decide (k ∈ d.*1)) as [Hin|Hnin].
  - by rewrite odict_set_keys.
  - rewrite odict_set_fresh by done. rewrite fmap_app. simpl.
    apply NoDup_app. split; [done|]. split; [|apply NoDup_singleton].
    intros x Hx ->%list_elem_of_singleton. done.
Qed.

Lemma odict_set_all_NoDup {V} (ws d : list (string * V)) :
  NoDup d.*1 -> NoDup (ODict.set_all ws d).*1.
Proof.
  revert d. induction ws as [|[k v] ws IH]; intros d Hnd; simpl; [done|].
  apply IH. by apply odict_set_NoDup.
Qed.

Lemma odict_get_elem_of {V} k (v : V) d :
  NoDup d.*1 -> (k, v) ∈ d -> ODict.get k d = Some v.
Proof.
  induction d as [|[k' v'] d IH]; simpl; [by intros _ ?%elem_of_nil|].
  intros [Hk' Hnd]%NoDup_cons [[= -> ->]|Hin]%elem_of_cons.
  - by rewrite String.eqb_refl.
  - destruct (String.eqb k k') eqn:E.
    + apply String.eqb_eq in E as ->. exfalso. apply Hk'.
      apply list_elem_of_fmap. by exists (k', v).
    + by apply IH.
Qed.

Lemma flat_map_nil {A B} (f : A -> list B) (l : list A) :
  (forall x, x ∈ l -> f x = []) -> flat_map f l = [].
Proof.
  induction l as [|x l IH]; intros Hf; [done|]. simpl.
  rewrite Hf by (apply elem_of_cons; by left).
  apply IH. intros y Hy. apply Hf. apply elem_of_cons. by right.
Qed.

Lemma iterates_sets_empty set_iter : iterates_sets set_iter -> set_iter ∅ = [].
Proof.
  intros Hiter. specialize (Hiter ∅). rewrite elements_empty in Hiter.
  by apply Permutation_nil_r in Hiter.
Qed.

Lemma alter_same_table set_iter current new :
  iterates_sets set_iter -> same_table new current ->
  _alter_table_statements set_iter current new = [].
Proof.
  intros Hiter [Hcols Hfks]. unfold _alter_table_statements.
  assert (list_to_set (Table.foreign_keys new)
          ∖ list_to_set (Table.foreign_keys current) = (∅ : gset string)) as ->.
  { apply set_eq. intros fk. rewrite elem_of_difference, !elem_of_list_to_set.
    specialize (Hfks fk). rewrite elem_of_empty. tauto. }
  rewrite (iterates_sets_empty _ Hiter). simpl. rewrite <- Hcols.
  assert (forall e, e ∈ ODict.of_list Column.name (Table.columns new) ->
            cols_by_name (Table.columns new) !! e.1 = Some e.2) as Hlook.
  { intros [k c] Hin. rewrite cols_by_name_lookup. simpl.
    apply odict_get_elem_of; [|done].
    apply odict_set_all_NoDup. simpl. apply NoDup_nil_2. }
  rewrite !flat_map_nil; [done| |].
  - intros [k c] Hin. apply Hlook in Hin. simpl in Hin. rewrite Hin.
    by rewrite String.eqb_refl, Bool.eqb_reflx.
  - intros [k c] Hin. apply Hlook in Hin. simpl in Hin. by rewrite Hin.
Qed.

Lemma current_only_tables_untouched_witness :
  generate_migration elements
    {[ "legacy" := Table.mk "legacy" [ Column.mk "id" "INTEGER" false true ] [] ]}
    [ ("widget", Table.mk "widget" [ Column.mk "id" "SERIAL" false true ] []) ]
  = generate_migration elements ∅
      [ ("widget", Table.mk "widget" [ Column.mk "id" "SERIAL" false true ] []) ].
Proof.
  apply (current_only_tables_untouched elements
           {[ "legacy" := Table.mk "legacy" [ Column.mk "id" "INTEGER" false true ] [] ]}
           [ ("widget", Table.mk "widget" [ Column.mk "id" "SERIAL" false true ] []) ]).
  intros k Hk. simpl in Hk. apply list_elem_of_singleton in Hk as ->.
  vm_compute. reflexivity.
Defined.

(** C4. A declared table whose current counterpart has the same columns
    and the same foreign-key set contributes no statement; if that holds
    for every declared table the whole sequence is empty, in particular
    when the current model is the declared model itself, as after the
    changes have been applied. *)
Theorem equal_tables_no_statements set_iter current_tables new_tables :
  iterates_sets set_iter ->
  (forall k t t',
     current_tables !! k = Some t' -> same_table t t' ->
     table_statements set_iter current_tables (k, t) = [])
  /\ ((forall k t, (k, t) ∈ new_tables ->
         exists t', current_tables !! k = Some t' /\ same_table t t') ->
      generate_migration set_iter current_tables new_tables = [])
  /\ (NoDup new_tables.*1 ->
      generate_migration set_iter (list_to_map new_tables) new_tables = []).
Proof.
  intros Hiter.
  assert (forall cur k t t',
            cur !! k = Some t' -> same_table t t' ->
            table_statements set_iter cur (k, t) = []) as Hone.
  { intros cur k t t' Hk Hsame. unfold table_statements. simpl. rewrite Hk.
    by apply alter_same_table. }
  assert (forall cur,
            (forall k t, (k, t) ∈ new_tables ->
               exists t', cur !! k = Some t' /\ same_table t t') ->
            generate_migration set_iter cur new_tables = []) as Hall.
  { intros cur Hsame. unfold generate_migration. apply flat_map_nil.
    intros [k t] Hin. destruct (Hsame k t Hin) as (t' & Hk & Ht).
    by eapply Hone. }
  split; [apply Hone|]. split; [apply Hall|].
  intros Hnd. apply Hall. intros k t Hin. exists t. split.
  - by apply elem_of_list_to_map_1.
  - by split.
Qed.

Lemma equal_tables_no_statements_witness :
  generate_migration elements
    {[ "widget" :=
         Table.mk "widget"
           [ Column.mk "id" "SERIAL" false true;
             Column.mk "name" "TEXT" true false ]
           [ "FOREIGN KEY (owner) REFERENCES owner(id)" ] ]}
    [ ("widget",
       Table.mk "widget"
         [ Column.mk "id" "SERIAL" false true;
           Column.mk "name" "TEXT" true false ]
         [ "FOREIGN KEY (owner) REFERENCES owner(id)";
           "FOREIGN KEY (owner) REFERENCES owner(id)" ]) ]
  = [].
Proof.
  refine (proj1 (proj2 (equal_tables_no_statements elements _ _ _)) _).
  - intros X. reflexivity.
  - intros k t Hin. apply list_elem_of_singleton in Hin as [= -> ->].
    eexists. split; [vm_compute; reflexivity|]. split; [reflexivity|].
    intros fk. simpl. rewrite !elem_of_cons. tauto.
Defined.

Lemma permutations_of_short_list {A} (l1 l2 l : list A) :
  l1 ≡ₚ l -> l2 ≡ₚ l -> length l <= 1 -> l1 = l2.
Proof.
  intros H1 H2 Hlen. destruct l as [|a [|b l]]; simpl in Hlen; [| |lia].
  - apply Permutation_nil_r in H1, H2. congruence.
  - apply Permutation_singleton_r in H1, H2. congruence.
Qed.

Lemma alter_iter_irrelevant set_iter1 set_iter2 current new :
  iterates_sets set_iter1 -> iterates_sets set_iter2 ->
  size (new_foreign_keys new current) <= 1 ->
  _alter_table_statements set_iter1 current new
  = _alter_table_statements set_iter2 current new.
Proof.
  intros H1 H2 Hsize. unfold _alter_table_statements.
  fold (new_foreign_keys new current).
  by rewrite (permutations_of_short_list _ _ _
                (H1 (new_foreign_keys new current))
                (H2 (new_foreign_keys new current)) Hsize).
Qed.

Lemma generate_migration_iter_irrelevant
    set_iter1 set_iter2 current_tables new_tables :
  iterates_sets set_iter1 -> iterates_sets set_iter2 ->
  (forall k t t',
     (k, t) ∈ new_tables -> current_tables !! k = Some t' ->
     size (new_foreign_keys t t') <= 1) ->
  generate_migration set_iter1 current_tables new_tables
  = generate_migration set_iter2 current_tables new_tables.
Proof.
  intros H1 H2. unfold generate_migration.
  induction new_tables as [|[k t] new_tables IH]; intros Hsize; [done|].
  simpl. rewrite IH.
  - f_equal. unfold table_statements. simpl.
    destruct (current_tables !! k) as [t'|] eqn:Hk; [|done].
    apply alter_iter_irrelevant; [done..|].
    eapply Hsize; [|done]. apply elem_of_cons. by left.
  - intros k' t0 t' Hin. apply Hsize. apply elem_of_cons. by right.
Qed.

Lemma writes_at_most_one_fk base messages k t :
  (k, t) ∈ writes base messages -> length (Table.foreign_keys t) <= 1.
Proof.
  unfold writes. intros Hin.
  apply list_elem_of_In, in_flat_map in Hin as (msg & _ & Hin).
  apply list_elem_of_In in Hin. unfold message_writes in Hin.
  apply elem_of_app in Hin as [Hin|Hin].
  - unfold body_writes in Hin.
    apply list_elem_of_In, in_flat_map in Hin as (line & _ & Hin).
    destruct line as [[[[]|] ft fname]|]; simpl in Hin; try done.
    destruct Hin as [[= <- <-]|[]]. simpl. lia.
  - apply list_elem_of_singleton in Hin as [= _ ->]. simpl. lia.
Qed.

Lemma new_foreign_keys_size declared current :
  length (Table.foreign_keys declared) <= 1 ->
  size (new_foreign_keys declared current) <= 1.
Proof.
  unfold new_foreign_keys.
  destruct (Table.foreign_keys declared) as [|fk [|fk' fks]]; simpl; [| |lia];
    intros _.
  - etrans; [apply (subseteq_size _ ∅)|rewrite size_empty; lia].
    intros x [Hx _]%elem_of_difference. done.
  - etrans; [apply (subseteq_size _ {[fk]})|by rewrite size_singleton].
    intros x [Hx _]%elem_of_difference.
    apply elem_of_union in Hx as [Hx|Hx]; [done|by apply elem_of_empty in Hx].
Qed.

(** C3, as the code has it. Two runs, each with its own iteration order
    for sets, produce the same statements, constraint names included,
    whenever no declared table has more than one foreign key that its
    current counterpart lacks; this is the case for every model the
    translator produces. *)
Theorem reconcile_runs_agree set_iter1 set_iter2 current_tables :
  iterates_sets set_iter1 -> iterates_sets set_iter2 ->
  (forall new_tables,
     (forall k t t',
        (k, t) ∈ new_tables -> current_tables !! k = Some t' ->
        size (new_foreign_keys t t') <= 1) ->
     generate_migration set_iter1 current_tables new_tables
     = generate_migration set_iter2 current_tables new_tables)
  /\ (forall stem messages,
        generate_migration set_iter1 current_tables
          (parse_proto_file stem messages)
        = generate_migration set_iter2 current_tables
            (parse_proto_file stem messages)).
Proof.
  intros H1 H2. split.
  - intros new_tables. by apply generate_migration_iter_irrelevant.
  - intros stem messages. apply generate_migration_iter_irrelevant; [done..|].
    intros k t t' Hin _. apply new_foreign_keys_size.
    rewrite parse_proto_file_writes in Hin.
    apply odict_elem_of_set_all in Hin as [Hin|Hin].
    + by eapply writes_at_most_one_fk.
    + by apply elem_of_nil in Hin.
Qed.

Lemma reverse_iterates_sets : iterates_sets (fun X => reverse (elements X)).
Proof. intros X. apply reverse_Permutation. Qed.

Lemma elements_iterates_sets : iterates_sets elements.
Proof. intros X. reflexivity. Qed.

Lemma reconcile_runs_agree_witness :
  generate_migration elements
    {[ "widget_tags" := Table.mk "widget_tags" [] [] ]}
    (parse_proto_file "widget"
       [ mkMessage "Root" [ Some (mkField (Some repeated) "string" "tags") ] ])
  = generate_migration (fun X => reverse (elements X))
      {[ "widget_tags" := Table.mk "widget_tags" [] [] ]}
      (parse_proto_file "widget"
         [ mkMessage "Root" [ Some (mkField (Some repeated) "string" "tags") ] ]).
Proof.
  apply (reconcile_runs_agree elements (fun X => reverse (elements X))
           {[ "widget_tags" := Table.mk "widget_tags" [] [] ]}).
  - intros X. reflexivity.
  - intros X. apply reverse_Permutation.
Defined.

(** C3, as stated, fails: table [t] gains two foreign keys; a run that
    iterates the set of new keys in one order and a run that iterates it
    in the opposite order pair the generated names [fk_t_0] and [fk_t_1]
    with different keys. *)
Lemma reconcile_runs_disagree :
  let current_tables : gmap string Table :=
    {[ "t" := Table.mk "t" [ Column.mk "id" "SERIAL" false true ] [] ]} in
  let new_tables :=
    [ ("t", Table.mk "t" [ Column.mk "id" "SERIAL" false true ]
              [ "FOREIGN KEY (a) REFERENCES x(id)";
                "FOREIGN KEY (b) REFERENCES y(id)" ]) ] in
  iterates_sets elements
  /\ iterates_sets (fun X => reverse (elements X))
  /\ generate_migration elements current_tables new_tables
     <> generate_migration (fun X => reverse (elements X))
          current_tables new_tables.
Proof.
  split; [apply elements_iterates_sets|]. split; [apply reverse_iterates_sets|].
  vm_compute. discriminate.
Qed.

(** C5, evaluated. For source [widget] with a root message holding the
    repeated field [tags], on an empty database: the child table is
    assigned into the dictionary before its parent, so the statement that
    adds the constraint referencing [widget] comes before the statement
    that creates [widget]. *)
Theorem child_constraint_precedes_parent_creation set_iter :
  generate_migration set_iter ∅
    (parse_proto_file "widget"
       [ mkMessage "Root" [ Some (mkField (Some repeated) "string" "tags") ] ])
  = [ create_table_sql "widget_tags"
        [ "id SERIAL NOT NULL PRIMARY KEY";
          "parent_id BIGINT NOT NULL";
          "value TEXT NOT NULL" ];
      "ALTER TABLE widget_tags ADD CONSTRAINT fk_widget_tags FOREIGN KEY (parent_id) REFERENCES widget(id);";
      create_table_sql "widget" [ "id SERIAL NOT NULL PRIMARY KEY" ] ].
Proof. reflexivity. Qed.

End Reconciler.

(** ** Applying migrations file by file *)

Section Runs.
Import ProtobufToSQLConverter SchemaManager.
Context {DB : Type}.
Variable execute : DB -> string -> option DB.
Variable set_iter : gset string -> list string.
Variable current_tables : gmap string Table.

Lemma main_loop_app before after conn migration_files migration_files' conn' :
  main_loop execute set_iter current_tables before conn migration_files
  = (Returned migration_files', conn') ->
  main_loop execute set_iter current_tables (before ++ after) conn migration_files
  = main_loop execute set_iter current_tables after conn' migration_files'.
Proof.
  revert conn migration_files.
  induction before as [|f before IH]; intros conn migration_files; simpl.
  - by intros [= -> ->].
  - destruct (process_proto_file execute set_iter current_tables conn f)
      as [[[sql_file|]|] conn1]; [apply IH|apply IH|done].
Qed.

(** C7, as the code has it. When the processing of a file raises, its
    transaction is rolled back, the exception leaves [main], and no later
    file is processed: the outcome and the database are those reached at
    the failing file, whatever files follow it. Files processed before it
    stay committed. *)
Theorem failing_file_aborts_run before proto_file after
    conn migration_files migration_files' conn' :
  main_loop execute set_iter current_tables before conn migration_files
  = (Returned migration_files', conn') ->
  (process_proto_file execute set_iter current_tables conn' proto_file).1
  = Raised ->
  main_loop execute set_iter current_tables
    (before ++ proto_file :: after) conn migration_files
  = (Raised, rollback conn').
Proof.
  intros Hbefore Hraise. rewrite (main_loop_app _ _ _ _ _ _ Hbefore). simpl.
  unfold process_proto_file in *.
  destruct (generate_migration set_iter current_tables
              (parse_proto_file proto_file.1 proto_file.2)); [done|].
  destruct (execute_all execute (s :: l) (working conn')); done.
Qed.

End Runs.

Section RunExample.
Import ProtobufToSQLConverter SchemaManager.

Lemma failing_file_aborts_run_witness :
  main_loop rejects_real elements ∅ ([] ++ file_a :: [file_b]) (mkConn [] []) []
  = (Raised, rollback (mkConn [] [])).
Proof.
  apply (failing_file_aborts_run rejects_real elements ∅ [] file_a [file_b]
           (mkConn [] []) [] [] (mkConn [] [])).
  - reflexivity.
  - vm_compute. reflexivity.
Defined.

(** C7, as stated, fails: file [a] fails and file [b], which on its own is
    migrated and committed, is never processed after it: the run raises
    and the database stays empty. *)
Lemma later_file_not_processed :
  main rejects_real elements ∅ [file_b] (mkConn [] [])
  = (Returned ["b"],
     mkConn [ create_table_sql "b"
                [ "id SERIAL NOT NULL PRIMARY KEY"; "label TEXT NULL" ] ]
            [ create_table_sql "b"
                [ "id SERIAL NOT NULL PRIMARY KEY"; "label TEXT NULL" ] ])
  /\ (process_proto_file rejects_real elements ∅ (mkConn [] []) file_a).1
     = Raised
  /\ main rejects_real elements ∅ [file_a; file_b] (mkConn [] [])
     = (Raised, mkConn [] []).
Proof. split; [|split]; vm_compute; reflexivity. Qed.

End RunExample.

(** ** Statements never mention DROP *)

Section Substrings.

Lemma string_app_cons c (s t : string) : String c s +:+ t = String c (s +:+ t).
Proof. reflexivity. Qed.

Lemma string_app_nil (t : string) : "" +:+ t = t.
Proof. reflexivity. Qed.

Lemma prefix_nil_r p : String.prefix p "" = true -> p = "".
Proof. by destruct p. Qed.

Lemma prefix_app_sep p s1 c s2 :
  String.prefix p (s1 +:+ String c s2) = true ->
  String.prefix p s1 = true \/ Str.has_char c p = true.
Proof.
  revert s1. induction p as [|a p IH]; intros s1.
  - left. by destruct s1.
  - destruct s1 as [|x s1]; simpl.
    + destruct (ascii_dec a c) as [->|]; [|done].
      intros _. right. by rewrite Ascii.eqb_refl.
    + destruct (ascii_dec a x); [|done].
      intros [H|H]%IH; [by left|right]. rewrite H. apply orb_true_r.
Qed.

Lemma prefix_app_mono p a b :
  String.prefix p a = true -> String.prefix p (a +:+ b) = true.
Proof.
  revert a. induction p as [|c p IH]; intros a.
  - intros _. by destruct (a +:+ b).
  - destruct a as [|x a]; simpl; [done|].
    destruct (ascii_dec c x); [apply IH|done].
Qed.

Lemma prefix_shorter p q s :
  String.prefix (p +:+ q) s = true -> String.prefix p s = true.
Proof.
  revert s. induction p as [|c p IH]; intros s.
  - intros _. by destruct s.
  - destruct s as [|x s]; simpl; [done|].
    destruct (ascii_dec c x); [apply IH|done].
Qed.

Lemma contains_cons p c s :
  Str.contains p (String c s) = false -> Str.contains p s = false.
Proof. simpl. by intros [_ ?]%orb_false_elim. Qed.

Lemma contains_app_sep p s1 c s2 :
  Str.has_char c p = false ->
  Str.contains p s1 = false -> Str.contains p s2 = false ->
  Str.contains p (s1 +:+ String c s2) = false.
Proof.
  intros Hc. induction s1 as [|x s1 IH]; intros H1 H2.
  - change ("" +:+ String c s2) with (String c s2).
    cbn [Str.contains]. rewrite H2, orb_false_r.
    destruct (String.prefix p (String c s2)) eqn:E; [|done].
    apply (prefix_app_sep p "" c s2) in E as [E|E]; [|congruence].
    apply prefix_nil_r in E as ->. done.
  - cbn [Str.contains] in H1. apply orb_false_elim in H1 as [Hp H1].
    change (String x s1 +:+ String c s2) with (String x (s1 +:+ String c s2)).
    cbn [Str.contains]. rewrite (IH H1 H2), orb_false_r.
    destruct (String.prefix p (String x (s1 +:+ String c s2))) eqn:E; [|done].
    apply (prefix_app_sep p (String x s1) c s2) in E as [E|E]; congruence.
Qed.

Lemma contains_app_mono p a b :
  Str.contains p a = true -> Str.contains p (a +:+ b) = true.
Proof.
  induction a as [|x a IH].
  - cbn [Str.contains]. rewrite orb_false_r. intros ->%prefix_nil_r.
    by destruct b.
  - change (String x a +:+ b) with (String x (a +:+ b)). cbn [Str.contains].
    intros [H|H]%orb_true_iff.
    + apply (prefix_app_mono _ _ b) in H.
      change (String x a +:+ b) with (String x (a +:+ b)) in H. by rewrite H.
    + rewrite (IH H). apply orb_true_r.
Qed.

Lemma contains_shorter p q s :
  Str.contains (p +:+ q) s = true -> Str.contains p s = true.
Proof.
  induction s as [|x s IH]; cbn [Str.contains].
  - rewrite !orb_false_r. apply prefix_shorter.
  - intros [H|H]%orb_true_iff.
    + by rewrite (prefix_shorter _ _ _ H).
    + rewrite (IH H). apply orb_true_r.
Qed.

(** Two pieces free of [DROP], joined by a character that is not one of
    its letters. *)
Lemma drop_free_sep s1 c s2 :
  Str.has_char c "DROP" = false ->
  drop_free s1 -> drop_free s2 -> drop_free (s1 +:+ String c s2).
Proof. apply contains_app_sep. Qed.

(** The same, for a piece that ends with such a character. *)
Lemma drop_free_lit s1 c s2 :
  Str.has_char c "DROP" = false ->
  drop_free s1 -> drop_free s2 -> drop_free ((s1 +:+ String c "") +:+ s2).
Proof.
  intros Hc H1 H2.
  assert ((s1 +:+ String c "") +:+ s2 = s1 +:+ String c s2) as ->.
  { clear. induction s1 as [|x s1 IH]; [done|].
    by rewrite !string_app_cons, IH. }
  by apply drop_free_sep.
Qed.

Lemma drop_free_prefix a b : drop_free (a +:+ b) -> drop_free a.
Proof.
  unfold drop_free. intros H.
  destruct (Str.contains "DROP" a) eqn:E; [|done].
  by rewrite (contains_app_mono _ _ b E) in H.
Qed.

Lemma drop_free_lstrip s : drop_free s -> drop_free (Str.lstrip s).
Proof.
  induction s as [|c s IH]; [done|]. simpl.
  destruct (Str.is_space c); [|done].
  intros H. apply IH. by eapply contains_cons.
Qed.

Lemma rstrip_prefix s : exists t, s = Str.rstrip s +:+ t.
Proof.
  induction s as [|c s [t IH]]; [by exists ""|]. simpl.
  destruct (Str.rstrip s) as [|x r].
  - destruct (Str.is_space c); [by eexists|].
    exists t. rewrite string_app_nil in IH.
    by rewrite string_app_cons, string_app_nil, <- IH.
  - exists t. by rewrite string_app_cons, <- IH.
Qed.

Lemma drop_free_strip s : drop_free s -> drop_free (Str.strip s).
Proof.
  intros H%drop_free_lstrip. unfold Str.strip.
  destruct (rstrip_prefix (Str.lstrip s)) as [t Ht].
  rewrite Ht in H. by eapply drop_free_prefix.
Qed.

Lemma drop_free_join defs :
  Forall drop_free defs -> drop_free (Str.join "," defs).
Proof.
  induction 1 as [|d defs Hd Hdefs IH]; [done|].
  destruct defs as [|d' defs]; [done|].
  change (Str.join "," (d :: d' :: defs))
    with (d +:+ String "," (Str.join "," (d' :: defs))).
  by apply drop_free_sep.
Qed.

Lemma drop_free_uint u : drop_free (NilEmpty.string_of_uint u).
Proof.
  unfold drop_free.
  induction u; simpl; rewrite ?IHu; reflexivity.
Qed.

Lemma drop_free_of_nat n : drop_free (Str.of_nat n).
Proof. apply drop_free_uint. Qed.

Lemma drop_free_nullable_kw b : drop_free (SchemaManager.nullable_kw b).
Proof. by destruct b. Qed.

Lemma drop_free_phrases s :
  drop_free s ->
  Str.contains "DROP TABLE" s = false
  /\ Str.contains "DROP COLUMN" s = false
  /\ Str.contains "DROP CONSTRAINT" s = false.
Proof.
  unfold drop_free. intros H. repeat split.
  - destruct (Str.contains "DROP TABLE" s) eqn:E; [|done].
    by rewrite (contains_shorter "DROP" " TABLE" s E) in H.
  - destruct (Str.contains "DROP COLUMN" s) eqn:E; [|done].
    by rewrite (contains_shorter "DROP" " COLUMN" s E) in H.
  - destruct (Str.contains "DROP CONSTRAINT" s) eqn:E; [|done].
    by rewrite (contains_shorter "DROP" " CONSTRAINT" s E) in H.
Qed.

End Substrings.

(** A statement template is a chain of pieces; every interpolated value
    sits between characters that are not letters of [DROP]. The tactic
    walks the chain from the left. *)
Ltac drop_free_piece :=
  solve [ assumption
        | apply drop_free_nullable_kw
        | apply drop_free_of_nat
        | reflexivity ].

Ltac drop_free_chain :=
  lazymatch goal with
  | |- drop_free (?P +:+ ?R) =>
      let sp := eval vm_compute in (Str.split_last P) in
      lazymatch sp with
      | Some (?L, ?c) =>
          apply (drop_free_lit L c R);
          [ reflexivity | vm_compute; reflexivity | drop_free_chain ]
      | None => change (drop_free R); drop_free_chain
      | _ =>
          lazymatch R with
          | ?L2 +:+ ?R2 =>
              let l2 := eval vm_compute in L2 in
              lazymatch l2 with
              | String ?c ?T =>
                  apply (drop_free_sep P c (T +:+ R2));
                  [ reflexivity | drop_free_piece | drop_free_chain ]
              end
          | _ =>
              let l2 := eval vm_compute in R in
              lazymatch l2 with
              | String ?c ?T =>
                  apply (drop_free_sep P c T);
                  [ reflexivity | drop_free_piece | vm_compute; reflexivity ]
              end
          end
      end
  | |- drop_free _ => drop_free_piece
  end.

Section DropFree.
Import ProtobufToSQLConverter SchemaManager.

Lemma drop_free_add_column_sql table_name col_name col :
  drop_free table_name -> drop_free col_name ->
  drop_free (Column.data_type col) ->
  drop_free (add_column_sql table_name col_name col).
Proof. intros. unfold add_column_sql. drop_free_chain. Qed.

Lemma drop_free_alter_column_sql table_name col_name col :
  drop_free table_name -> drop_free col_name ->
  drop_free (Column.data_type col) ->
  drop_free (alter_column_sql table_name col_name col).
Proof. intros. unfold alter_column_sql. drop_free_chain. Qed.

Lemma drop_free_column_def col :
  drop_free (Column.name col) -> drop_free (Column.data_type col) ->
  drop_free (column_def col).
Proof.
  intros. unfold column_def. apply drop_free_strip.
  destruct (Column.is_primary_key col); cbv zeta; drop_free_chain.
Qed.

Lemma drop_free_create_table_sql table_name column_defs :
  drop_free table_name -> Forall drop_free column_defs ->
  drop_free (create_table_sql table_name column_defs).
Proof.
  intros Hname Hdefs%drop_free_join. unfold create_table_sql. drop_free_chain.
Qed.

Lemma drop_free_add_fk table_name statements fk :
  drop_free table_name -> drop_free fk ->
  Forall drop_free statements ->
  Forall drop_free (add_fk table_name statements fk).
Proof.
  intros Hname Hfk Hstmts. unfold add_fk. apply Forall_app. split; [done|].
  apply Forall_singleton. drop_free_chain.
Qed.

End DropFree.

Section NeverDrop.
Import ProtobufToSQLConverter SchemaManager.

Lemma drop_free_create_table_statements t :
  drop_free_table t -> Forall drop_free (_create_table_statements t).
Proof.
  intros (Hname & Hcols & Hfks). unfold _create_table_statements.
  apply Forall_app. split.
  - apply Forall_singleton. apply drop_free_create_table_sql; [done|].
    apply List.Forall_map. eapply Forall_impl; [exact Hcols|].
    intros c [Hc Hty]. by apply drop_free_column_def.
  - apply List.Forall_map. eapply Forall_impl; [exact Hfks|].
    intros fk Hfk. simpl. drop_free_chain.
Qed.

Lemma drop_free_fold_add_fk table_name fks statements :
  drop_free table_name -> Forall drop_free fks -> Forall drop_free statements ->
  Forall drop_free (fold_left (add_fk table_name) fks statements).
Proof.
  intros Hname Hfks. revert statements.
  induction Hfks as [|fk fks Hfk _ IH]; intros statements Hstmts; [done|].
  simpl. apply IH. by apply drop_free_add_fk.
Qed.

Lemma of_list_entry (cols : list Column) k c :
  (k, c) ∈ ODict.of_list Column.name cols -> k = Column.name c /\ c ∈ cols.
Proof.
  unfold ODict.of_list. intros [Hin|Hin]%odict_elem_of_set_all.
  - apply list_elem_of_In, in_map_iff in Hin as (c' & [= <- <-] & Hin).
    split; [done|]. by apply list_elem_of_In.
  - by apply elem_of_nil in Hin.
Qed.

Lemma drop_free_alter_table_statements set_iter current new :
  iterates_sets set_iter ->
  drop_free (Table.name current) -> drop_free_table new ->
  Forall drop_free (_alter_table_statements set_iter current new).
Proof.
  intros Hiter Hname (_ & Hcols & Hfks). unfold _alter_table_statements.
  assert (forall k c, (k, c) ∈ ODict.of_list Column.name (Table.columns new) ->
            drop_free k /\ drop_free (Column.data_type c)) as Hentry.
  { intros k c [-> Hc]%of_list_entry.
    by apply (proj1 (Forall_forall _ _) Hcols). }
  apply drop_free_fold_add_fk; [done| |].
  - apply Forall_forall. intros fk Hfk. rewrite (Hiter _) in Hfk.
    apply elem_of_elements, elem_of_difference in Hfk as [Hfk _].
    apply elem_of_list_to_set in Hfk.
    by apply (proj1 (Forall_forall _ _) Hfks).
  - apply Forall_app. split; apply Forall_forall; intros s Hs;
      apply list_elem_of_In, in_flat_map in Hs as ([k c] & Hkc & Hs);
      apply list_elem_of_In, Hentry in Hkc as [Hk Hty];
      destruct (cols_by_name (Table.columns current) !! k) as [cc|];
      simpl in Hs; try done.
    + destruct Hs as [<-|[]]. by apply drop_free_add_column_sql.
    + destruct (negb (String.eqb (Column.data_type c) (Column.data_type cc))
                || negb (Bool.eqb (Column.is_nullable c) (Column.is_nullable cc)));
        [|done].
      destruct Hs as [<-|[]]. by apply drop_free_alter_column_sql.
Qed.

End NeverDrop.

(** * Further properties of the code *)

(** ** Translator: the shape of the result *)

Section TranslatorShape.
Import ProtobufToSQLConverter Writes.

Lemma writes_name_key base messages k t :
  (k, t) ∈ writes base messages -> Table.name t = k.
Proof.
  unfold writes. intros Hin.
  apply list_elem_of_In, in_flat_map in Hin as (msg & _ & Hin).
  apply list_elem_of_In in Hin. unfold message_writes in Hin.
  apply elem_of_app in Hin as [Hin|Hin].
  - unfold body_writes in Hin.
    apply list_elem_of_In, in_flat_map in Hin as (line & _ & Hin).
    destruct line as [[[[]|] ft fname]|]; simpl in Hin; try done.
    by destruct Hin as [[= <- <-]|[]].
  - by apply list_elem_of_singleton in Hin as [= -> ->].
Qed.

(** X1. The result of translation is a dictionary: its keys are pairwise
    distinct, and every table is stored under its own name. *)
Theorem translated_tables_keyed_by_name stem messages :
  NoDup (parse_proto_file stem messages).*1
  /\ Forall (fun entry => Table.name entry.2 = entry.1)
       (parse_proto_file stem messages).
Proof.
  rewrite parse_proto_file_writes. split.
  - apply odict_set_all_NoDup. apply NoDup_nil_2.
  - apply Forall_forall. intros [k t] Hin. simpl.
    apply odict_elem_of_set_all in Hin as [Hin|Hin].
    + by eapply writes_name_key.
    + by apply elem_of_nil in Hin.
Qed.

(** X2. Every table of the result is the table of one of the messages, or the
    child table of a repeated field of one of the messages: translation
    invents no other table. *)
Theorem translated_table_provenance stem messages k t :
  (k, t) ∈ parse_proto_file stem messages ->
  exists msg,
    msg ∈ messages
    /\ let P := table_name_of (Str.lower stem) (message_name msg) in
       (k = P
        /\ t = Table.mk P
                 (Column.mk "id" "SERIAL" false true
                  :: scalar_columns (message_body msg)) [])
       \/ (exists ft f,
             Some (mkField (Some repeated) ft f) ∈ message_body msg
             /\ k = P +:+ "_" +:+ f
             /\ t = Table.mk (P +:+ "_" +:+ f)
                      [ Column.mk "id" "SERIAL" false true;
                        Column.mk "parent_id" "BIGINT" false false;
                        Column.mk "value" (sql_type ft) false false ]
                      [ "FOREIGN KEY (parent_id) REFERENCES " +:+ P
                        +:+ "(id)" ]).
Proof.
  rewrite parse_proto_file_writes.
  intros [Hin|Hin]%odict_elem_of_set_all; [|by apply elem_of_nil in Hin].
  unfold writes in Hin.
  apply list_elem_of_In, in_flat_map in Hin as (msg & Hmsg & Hin).
  exists msg. split; [by apply list_elem_of_In|].
  apply list_elem_of_In in Hin. unfold message_writes in Hin.
  apply elem_of_app in Hin as [Hin|Hin].
  - right. unfold body_writes in Hin.
    apply list_elem_of_In, in_flat_map in Hin as (line & Hline & Hin).
    destruct line as [[[[]|] ft fname]|]; simpl in Hin; try done.
    destruct Hin as [[= <- <-]|[]].
    exists ft, fname. split; [by apply list_elem_of_In|done].
  - left. by apply list_elem_of_singleton in Hin as [= -> ->].
Qed.

Lemma translated_table_provenance_witness :
  exists msg,
    msg ∈ [ mkMessage "Root" [ Some (mkField (Some repeated) "string" "tags") ] ]
    /\ ("widget" = table_name_of (Str.lower "widget") (message_name msg)
        /\ Table.mk "widget" [ Column.mk "id" "SERIAL" false true ] []
           = Table.mk (table_name_of (Str.lower "widget") (message_name msg))
               (Column.mk "id" "SERIAL" false true
                :: scalar_columns (message_body msg)) []
        \/ exists ft f,
             Some (mkField (Some repeated) ft f) ∈ message_body msg
             /\ "widget"
                = table_name_of (Str.lower "widget") (message_name msg)
                  +:+ "_" +:+ f
             /\ Table.mk "widget" [ Column.mk "id" "SERIAL" false true ] []
                = Table.mk
                    (table_name_of (Str.lower "widget") (message_name msg)
                     +:+ "_" +:+ f)
                    [ Column.mk "id" "SERIAL" false true;
                      Column.mk "parent_id" "BIGINT" false false;
                      Column.mk "value" (sql_type ft) false false ]
                    [ "FOREIGN KEY (parent_id) REFERENCES "
                      +:+ table_name_of (Str.lower "widget") (message_name msg)
                      +:+ "(id)" ]).
Proof.
  apply (translated_table_provenance "widget"
           [ mkMessage "Root" [ Some (mkField (Some repeated) "string" "tags") ] ]
           "widget"
           (Table.mk "widget" [ Column.mk "id" "SERIAL" false true ] [])).
  vm_compute. apply elem_of_cons. right. apply elem_of_cons. by left.
Defined.

Lemma odict_last_write_is_Some {V} k (ws : list (string * V)) :
  k ∈ ws.*1 -> is_Some (ODict.last_write k ws).
Proof.
  induction ws as [|[k' v] ws IH]; csimpl; [by intros ?%elem_of_nil|].
  intros [->|Hin]%elem_of_cons.
  - destruct (ODict.last_write k' ws); [done|]. by rewrite String.eqb_refl.
  - destruct (IH Hin) as [v' ->]. done.
Qed.

(** X3. Every message name and every repeated field leaves its table name in
    the result, even when several of them are given the same name. *)
Theorem translated_names_present stem messages msg :
  msg ∈ messages ->
  let P := table_name_of (Str.lower stem) (message_name msg) in
  is_Some (ODict.get P (parse_proto_file stem messages))
  /\ forall ft f,
       Some (mkField (Some repeated) ft f) ∈ message_body msg ->
       is_Some (ODict.get (P +:+ "_" +:+ f) (parse_proto_file stem messages)).
Proof.
  intros Hmsg P. rewrite parse_proto_file_writes.
  assert (forall k t, (k, t) ∈ message_writes (Str.lower stem) msg ->
            is_Some (ODict.get k
                       (ODict.set_all (writes (Str.lower stem) messages) [])))
    as Hpresent.
  { intros k t Hin. rewrite odict_get_set_all.
    destruct (odict_last_write_is_Some k (writes (Str.lower stem) messages))
      as [v ->]; [|done].
    apply list_elem_of_fmap. exists (k, t). split; [done|].
    unfold writes. apply list_elem_of_In, in_flat_map.
    exists msg. split; by apply list_elem_of_In. }
  split.
  - eapply Hpresent. unfold message_writes. apply elem_of_app. right.
    apply list_elem_of_singleton. reflexivity.
  - intros ft f Hf. eapply Hpresent. unfold message_writes.
    apply elem_of_app. left. unfold body_writes.
    apply list_elem_of_In, in_flat_map. eexists. split.
    + apply list_elem_of_In. exact Hf.
    + simpl. left. reflexivity.
Qed.

Lemma translated_names_present_witness :
  is_Some (ODict.get "widget_foo"
             (parse_proto_file "widget"
                [ mkMessage "Foo" []; mkMessage "FOO" [] ])).
Proof.
  refine (proj1 (translated_names_present "widget"
                   [ mkMessage "Foo" []; mkMessage "FOO" [] ]
                   (mkMessage "FOO" []) _)).
  apply elem_of_cons. right. apply elem_of_cons. by left.
Defined.

Lemma parse_proto_file_fresh stem messages :
  NoDup (writes (Str.lower stem) messages).*1 ->
  parse_proto_file stem messages = writes (Str.lower stem) messages.
Proof.
  intros Hnd. rewrite parse_proto_file_writes.
  by rewrite odict_set_all_fresh.
Qed.

(** X5. When the generated table names are pairwise distinct, the result
    lists, message by message, the child tables of the repeated fields in
    field order and then the table of the message itself. *)
Theorem translated_tables_in_order stem messages :
  NoDup (writes (Str.lower stem) messages).*1 ->
  parse_proto_file stem messages = writes (Str.lower stem) messages.
Proof. apply parse_proto_file_fresh. Qed.

Lemma translated_tables_in_order_witness :
  parse_proto_file "widget"
    [ mkMessage "Root"
        [ Some (mkField None "string" "name");
          Some (mkField (Some repeated) "string" "tags") ] ]
  = writes "widget"
      [ mkMessage "Root"
          [ Some (mkField None "string" "name");
            Some (mkField (Some repeated) "string" "tags") ] ].
Proof.
  apply (translated_tables_in_order "widget").
  apply (bool_decide_unpack _). vm_compute. exact I.
Defined.

End TranslatorShape.

(** ** Translator: table names *)

Section TableNames.
Import ProtobufToSQLConverter SchemaManager Writes.

Lemma lower_char_idempotent c : Str.lower_char (Str.lower_char c) = Str.lower_char c.
Proof. destruct c as [[] [] [] [] [] [] [] []]; reflexivity. Qed.

Lemma lower_idempotent s : Str.lower (Str.lower s) = Str.lower s.
Proof.
  induction s as [|c s IH]; [done|]. simpl.
  by rewrite lower_char_idempotent, IH.
Qed.

Lemma lower_app s t : Str.lower (s +:+ t) = Str.lower s +:+ Str.lower t.
Proof.
  induction s as [|c s IH]; [done|].
  rewrite string_app_cons. simpl. by rewrite IH.
Qed.

(** X6. A message is given the bare base name exactly when its name is
    [root] in some letter case; and the name of a message table does not
    depend on the letter case of the message name. *)
Theorem root_message_takes_base_name table_name_base message_name :
  (table_name_of table_name_base message_name = table_name_base
   <-> Str.lower message_name = "root")
  /\ table_name_of table_name_base (Str.lower message_name)
     = table_name_of table_name_base message_name.
Proof.
  split.
  - unfold table_name_of.
    destruct (String.eqb (Str.lower message_name) "root") eqn:E.
    + apply String.eqb_eq in E. done.
    + apply String.eqb_neq in E. split; [|done].
      intros H. by apply append_suffix_neq in H.
  - unfold table_name_of. by rewrite lower_idempotent.
Qed.

(** X7. The name of a message table is in lower case, whatever the letter
    case of the file stem and of the message name. *)
Theorem message_table_name_lower_case stem message_name :
  Str.lower (table_name_of (Str.lower stem) message_name)
  = table_name_of (Str.lower stem) message_name.
Proof.
  unfold table_name_of.
  destruct (String.eqb (Str.lower message_name) "root").
  - apply lower_idempotent.
  - by rewrite !lower_app, !lower_idempotent.
Qed.

Lemma generate_migration_app set_iter current_tables l1 l2 :
  generate_migration set_iter current_tables (l1 ++ l2)
  = generate_migration set_iter current_tables l1
    ++ generate_migration set_iter current_tables l2.
Proof. unfold generate_migration. apply flat_map_app. Qed.

(** X8. For a repeated field of any message, when the generated table names
    are pairwise distinct and neither the child table nor the parent
    table exists yet: the statements that create the child table and add
    its constraint on the parent come before the statement that creates
    the parent table. *)
Theorem child_statements_before_parent set_iter current_tables
    stem before msg after l1 ft f l2 :
  message_body msg = l1 ++ Some (mkField (Some repeated) ft f) :: l2 ->
  let P := table_name_of (Str.lower stem) (message_name msg) in
  let child := P +:+ "_" +:+ f in
  NoDup (writes (Str.lower stem) (before ++ msg :: after)).*1 ->
  current_tables !! child = None ->
  current_tables !! P = None ->
  exists s1 s2 s3,
    generate_migration set_iter current_tables
      (parse_proto_file stem (before ++ msg :: after))
    = s1
      ++ [ create_table_sql child
             (map column_def
                [ Column.mk "id" "SERIAL" false true;
                  Column.mk "parent_id" "BIGINT" false false;
                  Column.mk "value" (sql_type ft) false false ]);
           "ALTER TABLE " +:+ child +:+ " ADD CONSTRAINT fk_" +:+ child
           +:+ " " +:+ ("FOREIGN KEY (parent_id) REFERENCES " +:+ P +:+ "(id)")
           +:+ ";" ]
      ++ s2
      ++ [ create_table_sql P
             (map column_def
                (Column.mk "id" "SERIAL" false true
                 :: scalar_columns (message_body msg))) ]
      ++ s3.
Proof.
  intros Hbody P child Hnd Hchild HP.
  rewrite (parse_proto_file_fresh _ _ Hnd).
  rewrite writes_app. change (msg :: after) with ([msg] ++ after).
  rewrite writes_app. unfold writes at 2. simpl. rewrite app_nil_r.
  unfold message_writes. fold P.
  rewrite (f_equal (body_writes P) Hbody).
  change (Some (mkField (Some repeated) ft f) :: l2)
    with ([Some (mkField (Some repeated) ft f)] ++ l2).
  rewrite !body_writes_app. rewrite !generate_migration_app.
  exists (generate_migration set_iter current_tables
            (writes (Str.lower stem) before)
          ++ generate_migration set_iter current_tables (body_writes P l1)),
         (generate_migration set_iter current_tables (body_writes P l2)),
         (generate_migration set_iter current_tables
            (writes (Str.lower stem) after)).
  rewrite <- !app_assoc. do 2 f_equal.
  unfold generate_migration at 1. simpl. fold child.
  unfold table_statements at 1. simpl. rewrite Hchild. simpl.
  do 2 f_equal. f_equal.
  unfold generate_migration at 2. simpl.
  unfold table_statements at 1. simpl. rewrite HP. simpl. done.
Qed.

Lemma child_statements_before_parent_witness :
  exists s1 s2 s3,
    generate_migration elements ∅
      (parse_proto_file "shop"
         ([] ++ mkMessage "Order"
                  [ Some (mkField None "int64" "total");
                    Some (mkField (Some repeated) "string" "items") ] :: []))
    = s1
      ++ [ create_table_sql "shop_order_items"
             (map column_def
                [ Column.mk "id" "SERIAL" false true;
                  Column.mk "parent_id" "BIGINT" false false;
                  Column.mk "value" (sql_type "string") false false ]);
           "ALTER TABLE shop_order_items ADD CONSTRAINT fk_shop_order_items FOREIGN KEY (parent_id) REFERENCES shop_order(id);" ]
      ++ s2
      ++ [ create_table_sql "shop_order"
             (map column_def
                (Column.mk "id" "SERIAL" false true
                 :: scalar_columns
                      [ Some (mkField None "int64" "total");
                        Some (mkField (Some repeated) "string" "items") ])) ]
      ++ s3.
Proof.
  apply (child_statements_before_parent elements ∅ "shop" []
           (mkMessage "Order"
              [ Some (mkField None "int64" "total");
                Some (mkField (Some repeated) "string" "items") ])
           [] [ Some (mkField None "int64" "total") ] "string" "items" []).
  - reflexivity.
  - apply (bool_decide_unpack _). vm_compute. exact I.
  - reflexivity.
  - reflexivity.
Defined.

End TableNames.

(** ** Reconciler: what an existing table gives rise to *)

Section AlterTable.
Import SchemaManager.
Implicit Types (set_iter : gset string -> list string) (current new : Table).

Lemma cols_by_name_Some cols k c :
  cols_by_name cols !! k = Some c -> c ∈ cols /\ Column.name c = k.
Proof.
  rewrite cols_by_name_lookup. unfold ODict.of_list.
  rewrite odict_get_set_all. simpl.
  destruct (ODict.last_write k (map (fun x => (Column.name x, x)) cols))
    as [c'|] eqn:E; [|done].
  intros [= ->]. clear -E.
  induction cols as [|c0 cols IH]; simpl in E; [done|].
  destruct (ODict.last_write k (map (fun x => (Column.name x, x)) cols)).
  - injection E as ->. destruct IH as [? ?]; [done|].
    split; [by apply elem_of_cons; right|done].
  - destruct (String.eqb k (Column.name c0)) eqn:Ek; [|done].
    injection E as ->. apply String.eqb_eq in Ek.
    split; [by apply elem_of_cons; left|done].
Qed.

Lemma cols_by_name_None cols k :
  cols_by_name cols !! k = None <-> k ∉ map Column.name cols.
Proof.
  rewrite cols_by_name_lookup. unfold ODict.of_list.
  rewrite odict_get_set_all. simpl.
  induction cols as [|c0 cols IH]; simpl.
  - split; [intros _; apply not_elem_of_nil|done].
  - rewrite not_elem_of_cons.
    destruct (ODict.last_write k (map (fun x => (Column.name x, x)) cols)).
    + split; [done|]. intros [_ H]. by apply IH in H.
    + destruct (String.eqb k (Column.name c0)) eqn:Ek.
      * apply String.eqb_eq in Ek. split; [done|]. by intros [? _].
      * apply String.eqb_neq in Ek. split; [|done].
        intros _. split; [done|]. by apply IH.
Qed.

Lemma cols_by_name_elem_of cols c :
  NoDup (map Column.name cols) -> c ∈ cols ->
  cols_by_name cols !! Column.name c = Some c.
Proof.
  intros Hnd Hc.
  destruct (cols_by_name cols !! Column.name c) as [c'|] eqn:E.
  - apply cols_by_name_Some in E as [Hc' Hname]. f_equal.
    clear -Hnd Hc Hc' Hname.
    induction cols as [|c0 cols IH]; [by apply elem_of_nil in Hc|].
    simpl in Hnd. apply NoDup_cons in Hnd as [Hc0 Hnd].
    apply elem_of_cons in Hc as [->|Hc]; apply elem_of_cons in Hc' as [->|Hc'].
    + done.
    + exfalso. apply Hc0. rewrite <- Hname.
      apply list_elem_of_In, in_map, list_elem_of_In. done.
    + exfalso. apply Hc0. rewrite Hname.
      apply list_elem_of_In, in_map, list_elem_of_In. done.
    + by apply IH.
  - apply cols_by_name_None in E. exfalso. apply E.
    apply list_elem_of_In, in_map, list_elem_of_In. done.
Qed.

Lemma of_list_NoDup (cols : list Column) :
  NoDup (map Column.name cols) ->
  ODict.of_list Column.name cols = map (fun c => (Column.name c, c)) cols.
Proof.
  intros Hnd. unfold ODict.of_list. rewrite odict_set_all_fresh; [done|].
  simpl. replace ((map (fun c => (Column.name c, c)) cols).*1)
    with (map Column.name cols); [done|].
  clear. induction cols as [|c cols IH]; [done|]. csimpl. by rewrite <- IH.
Qed.

Lemma flat_map_map {A B C} (f : B -> list C) (g : A -> B) (l : list A) :
  flat_map f (map g l) = flat_map (fun x => f (g x)) l.
Proof. induction l as [|x l IH]; [done|]. simpl. by rewrite IH. Qed.

Lemma fold_add_fk_numbered table_name fks statements :
  fold_left (add_fk table_name) fks statements
  = statements
    ++ imap (fun j fk => add_constraint_sql table_name (length statements + j) fk)
         fks.
Proof.
  revert statements. induction fks as [|fk fks IH]; intros statements.
  - simpl. by rewrite app_nil_r.
  - simpl. rewrite IH. unfold add_fk. rewrite <- app_assoc. f_equal.
    simpl. rewrite Nat.add_0_r. f_equal.
    apply imap_ext. intros j fk' _. simpl.
    rewrite length_app. simpl. f_equal. lia.
Qed.

Lemma set_iter_elem_of set_iter (X : gset string) fk :
  iterates_sets set_iter -> fk ∈ set_iter X <-> fk ∈ X.
Proof. intros Hiter. rewrite (Hiter X). apply elem_of_elements. Qed.

Lemma alter_statements_sound_aux set_iter current new statement :
  iterates_sets set_iter ->
  statement ∈ _alter_table_statements set_iter current new ->
  (exists c,
     c ∈ Table.columns new
     /\ (Column.name c ∉ map Column.name (Table.columns current))
     /\ statement = add_column_sql (Table.name current) (Column.name c) c)
  \/ (exists c cc,
        c ∈ Table.columns new /\ cc ∈ Table.columns current
        /\ Column.name cc = Column.name c
        /\ column_differs c cc = true
        /\ statement = alter_column_sql (Table.name current) (Column.name c) c)
  \/ (exists i fk,
        fk ∈ Table.foreign_keys new /\ (fk ∉ Table.foreign_keys current)
        /\ statement = add_constraint_sql (Table.name current) i fk).
Proof.
  intros Hiter. unfold _alter_table_statements.
  rewrite fold_add_fk_numbered.
  intros [[Hin|Hin]%elem_of_app|Hin]%elem_of_app.
  - left. apply list_elem_of_In, in_flat_map in Hin as ([k c] & Hkc & Hin).
    apply list_elem_of_In, of_list_entry in Hkc as [-> Hc].
    destruct (cols_by_name (Table.columns current) !! Column.name c) eqn:E;
      [done|].
    destruct Hin as [<-|[]]. exists c. split; [done|]. split; [|done].
    by apply cols_by_name_None.
  - right. left.
    apply list_elem_of_In, in_flat_map in Hin as ([k c] & Hkc & Hin).
    apply list_elem_of_In, of_list_entry in Hkc as [-> Hc].
    destruct (cols_by_name (Table.columns current) !! Column.name c)
      as [cc|] eqn:E; [|done].
    apply cols_by_name_Some in E as [Hcc Hname].
    fold (column_differs c cc) in Hin.
    destruct (column_differs c cc) eqn:Hd; [|done].
    destruct Hin as [<-|[]]. by exists c, cc.
  - right. right. apply elem_of_lookup_imap in Hin as (j & fk & -> & Hfk).
    apply list_elem_of_lookup_2, (set_iter_elem_of _ _ _ Hiter) in Hfk.
    apply elem_of_difference in Hfk as [Hnew Hcur].
    rewrite elem_of_list_to_set in Hnew, Hcur. eauto.
Qed.

(** X9. Soundness of the comparison: every statement for an existing table
    answers a difference. It adds a declared column whose name the
    current table lacks, or alters a declared column whose type or
    nullability differs from the current column of that name, or adds a
    declared foreign key that the current table lacks. *)
Theorem alter_statements_answer_differences set_iter current new statement :
  iterates_sets set_iter ->
  statement ∈ _alter_table_statements set_iter current new ->
  (exists c,
     c ∈ Table.columns new
     /\ (Column.name c ∉ map Column.name (Table.columns current))
     /\ statement = add_column_sql (Table.name current) (Column.name c) c)
  \/ (exists c cc,
        c ∈ Table.columns new /\ cc ∈ Table.columns current
        /\ Column.name cc = Column.name c
        /\ column_differs c cc = true
        /\ statement = alter_column_sql (Table.name current) (Column.name c) c)
  \/ (exists i fk,
        fk ∈ Table.foreign_keys new /\ (fk ∉ Table.foreign_keys current)
        /\ statement = add_constraint_sql (Table.name current) i fk).
Proof. apply alter_statements_sound_aux. Qed.

Lemma alter_statements_answer_differences_witness :
  (exists c,
     c ∈ [ Column.mk "id" "SERIAL" false true;
           Column.mk "age" "INTEGER" true false ]
     /\ (Column.name c ∉ map Column.name [ Column.mk "id" "SERIAL" false true ])
     /\ "ALTER TABLE widget ADD COLUMN age INTEGER NULL;"
        = add_column_sql "widget" (Column.name c) c)
  \/ (exists c cc,
        c ∈ [ Column.mk "id" "SERIAL" false true;
              Column.mk "age" "INTEGER" true false ]
        /\ cc ∈ [ Column.mk "id" "SERIAL" false true ]
        /\ Column.name cc = Column.name c
        /\ column_differs c cc = true
        /\ "ALTER TABLE widget ADD COLUMN age INTEGER NULL;"
           = alter_column_sql "widget" (Column.name c) c)
  \/ (exists i fk,
        fk ∈ @nil string /\ (fk ∉ @nil string)
        /\ "ALTER TABLE widget ADD COLUMN age INTEGER NULL;"
           = add_constraint_sql "widget" i fk).
Proof.
  apply (alter_statements_answer_differences elements
           (Table.mk "widget" [ Column.mk "id" "SERIAL" false true ] [])
           (Table.mk "widget"
              [ Column.mk "id" "SERIAL" false true;
                Column.mk "age" "INTEGER" true false ] [])).
  - intros X. reflexivity.
  - vm_compute. apply list_elem_of_singleton. reflexivity.
Defined.

End AlterTable.

Section AlterTableComplete.
Import SchemaManager.
Implicit Types (set_iter : gset string -> list string) (current new : Table).

Lemma alter_statements_NoDup set_iter current new :
  NoDup (map Column.name (Table.columns new)) ->
  _alter_table_statements set_iter current new
  = fold_left (add_fk (Table.name current))
      (set_iter (new_foreign_keys new current))
      (flat_map (fun c =>
                   match cols_by_name (Table.columns current) !! Column.name c with
                   | None => [ add_column_sql (Table.name current) (Column.name c) c ]
                   | Some _ => []
                   end) (Table.columns new)
       ++ flat_map (fun c =>
                      match cols_by_name (Table.columns current) !! Column.name c with
                      | Some cc =>
                          if column_differs c cc
                          then [ alter_column_sql (Table.name current)
                                   (Column.name c) c ]
                          else []
                      | None => []
                      end) (Table.columns new)).
Proof.
  intros Hnd. unfold _alter_table_statements.
  by rewrite (of_list_NoDup _ Hnd), !flat_map_map.
Qed.

Lemma elem_of_flat_map_intro {A B} (f : A -> list B) (l : list A) x y :
  x ∈ l -> y ∈ f x -> y ∈ flat_map f l.
Proof.
  intros Hx Hy. apply list_elem_of_In, in_flat_map.
  exists x. split; by apply list_elem_of_In.
Qed.

Lemma alter_statements_complete_aux set_iter current new :
  iterates_sets set_iter ->
  NoDup (map Column.name (Table.columns new)) ->
  NoDup (map Column.name (Table.columns current)) ->
  (forall c,
     c ∈ Table.columns new ->
     Column.name c ∉ map Column.name (Table.columns current) ->
     add_column_sql (Table.name current) (Column.name c) c
     ∈ _alter_table_statements set_iter current new)
  /\ (forall c cc,
        c ∈ Table.columns new -> cc ∈ Table.columns current ->
        Column.name cc = Column.name c -> column_differs c cc = true ->
        alter_column_sql (Table.name current) (Column.name c) c
        ∈ _alter_table_statements set_iter current new)
  /\ (forall fk,
        fk ∈ Table.foreign_keys new -> fk ∉ Table.foreign_keys current ->
        exists i,
          add_constraint_sql (Table.name current) i fk
          ∈ _alter_table_statements set_iter current new).
Proof.
  intros Hiter Hnew Hcur. rewrite (alter_statements_NoDup _ _ _ Hnew).
  rewrite fold_add_fk_numbered. split; [|split].
  - intros c Hc Hname. apply elem_of_app. left. apply elem_of_app. left.
    apply (elem_of_flat_map_intro _ _ c); [done|].
    apply cols_by_name_None in Hname. rewrite Hname.
    by apply list_elem_of_singleton.
  - intros c cc Hc Hcc Hname Hd. apply elem_of_app. left. apply elem_of_app.
    right. apply (elem_of_flat_map_intro _ _ c); [done|].
    rewrite <- Hname, (cols_by_name_elem_of _ _ Hcur Hcc), Hname, Hd.
    by apply list_elem_of_singleton.
  - intros fk Hfk Hnfk.
    assert (fk ∈ set_iter (new_foreign_keys new current)) as Hin.
    { apply (set_iter_elem_of _ _ _ Hiter). unfold new_foreign_keys.
      apply elem_of_difference. by rewrite !elem_of_list_to_set. }
    apply list_elem_of_lookup in Hin as [j Hj]. eexists.
    apply elem_of_app. right. apply elem_of_lookup_imap. by exists j, fk.
Qed.

(** X10. Completeness of the comparison, for a declared table whose column
    names are pairwise distinct: every declared column that the current
    table lacks is added, every declared column whose type or nullability
    differs from the current column of that name is altered, and every
    declared foreign key that the current table lacks is added under some
    number. *)
Theorem alter_statements_cover_differences set_iter current new :
  iterates_sets set_iter ->
  NoDup (map Column.name (Table.columns new)) ->
  NoDup (map Column.name (Table.columns current)) ->
  (forall c,
     c ∈ Table.columns new ->
     Column.name c ∉ map Column.name (Table.columns current) ->
     add_column_sql (Table.name current) (Column.name c) c
     ∈ _alter_table_statements set_iter current new)
  /\ (forall c cc,
        c ∈ Table.columns new -> cc ∈ Table.columns current ->
        Column.name cc = Column.name c -> column_differs c cc = true ->
        alter_column_sql (Table.name current) (Column.name c) c
        ∈ _alter_table_statements set_iter current new)
  /\ (forall fk,
        fk ∈ Table.foreign_keys new -> fk ∉ Table.foreign_keys current ->
        exists i,
          add_constraint_sql (Table.name current) i fk
          ∈ _alter_table_statements set_iter current new).
Proof. apply alter_statements_complete_aux. Qed.

Lemma alter_statements_cover_differences_witness :
  alter_column_sql "widget" "age" (Column.mk "age" "BIGINT" false false)
  ∈ _alter_table_statements elements
      (Table.mk "widget"
         [ Column.mk "id" "SERIAL" false true;
           Column.mk "age" "INTEGER" true false ] [])
      (Table.mk "widget"
         [ Column.mk "id" "SERIAL" false true;
           Column.mk "age" "BIGINT" false false ] []).
Proof.
  refine (proj1 (proj2
            (alter_statements_cover_differences elements
               (Table.mk "widget"
                  [ Column.mk "id" "SERIAL" false true;
                    Column.mk "age" "INTEGER" true false ] [])
               (Table.mk "widget"
                  [ Column.mk "id" "SERIAL" false true;
                    Column.mk "age" "BIGINT" false false ] []) _ _ _))
            (Column.mk "age" "BIGINT" false false)
            (Column.mk "age" "INTEGER" true false) _ _ _ _).
  - intros X. reflexivity.
  - apply (bool_decide_unpack _). vm_compute. exact I.
  - apply (bool_decide_unpack _). vm_compute. exact I.
  - apply elem_of_cons. right. apply elem_of_cons. by left.
  - apply elem_of_cons. right. apply elem_of_cons. by left.
  - reflexivity.
  - reflexivity.
Defined.

Lemma current_extras_are_left_alone_aux set_iter current new :
  iterates_sets set_iter ->
  NoDup (map Column.name (Table.columns current)) ->
  (forall c, c ∈ Table.columns new ->
     exists cc, cc ∈ Table.columns current
                /\ Column.name cc = Column.name c
                /\ Column.data_type cc = Column.data_type c
                /\ Column.is_nullable cc = Column.is_nullable c) ->
  (forall fk, fk ∈ Table.foreign_keys new -> fk ∈ Table.foreign_keys current) ->
  _alter_table_statements set_iter current new = [].
Proof.
  intros Hiter Hcur Hcols Hfks.
  destruct (_alter_table_statements set_iter current new) as [|s l] eqn:E;
    [done|].
  assert (s ∈ _alter_table_statements set_iter current new) as Hs.
  { rewrite E. apply elem_of_cons. by left. }
  apply alter_statements_sound_aux in Hs; [|done].
  exfalso. destruct Hs as [(c & Hc & Hname & _)|[(c & cc & Hc & Hcc & Hname & Hd & _)
                            |(i & fk & Hfk & Hnfk & _)]].
  - destruct (Hcols c Hc) as (cc & Hcc & Hn & _). apply Hname. rewrite <- Hn.
    by apply list_elem_of_In, in_map, list_elem_of_In.
  - destruct (Hcols c Hc) as (cc' & Hcc' & Hn & Hty & Hnull).
    assert (cc' = cc) as ->.
    { pose proof (cols_by_name_elem_of _ _ Hcur Hcc) as H1.
      pose proof (cols_by_name_elem_of _ _ Hcur Hcc') as H2.
      rewrite Hname in H1. rewrite Hn in H2. congruence. }
    unfold column_differs in Hd. rewrite Hty, Hnull in Hd.
    by rewrite String.eqb_refl, Bool.eqb_reflx in Hd.
  - by apply Hnfk, Hfks.
Qed.

(** X11. Nothing is ever removed or loosened on account of the current table:
    when the column names of the current table are pairwise distinct,
    every declared column has a current column of the same name, type and
    nullability, and every declared foreign key is a current one, there
    are no statements, whatever further columns and foreign keys the
    current table has and whatever the primary-key flags are. *)
Theorem current_extras_are_left_alone set_iter current new :
  iterates_sets set_iter ->
  NoDup (map Column.name (Table.columns current)) ->
  (forall c, c ∈ Table.columns new ->
     exists cc, cc ∈ Table.columns current
                /\ Column.name cc = Column.name c
                /\ Column.data_type cc = Column.data_type c
                /\ Column.is_nullable cc = Column.is_nullable c) ->
  (forall fk, fk ∈ Table.foreign_keys new -> fk ∈ Table.foreign_keys current) ->
  _alter_table_statements set_iter current new = [].
Proof. apply current_extras_are_left_alone_aux. Qed.

End AlterTableComplete.

Section AlterTableScenarios.
Import SchemaManager.
Implicit Types (set_iter : gset string -> list string) (current new : Table).

Lemma current_extras_are_left_alone_witness :
  _alter_table_statements elements
    (Table.mk "widget"
       [ Column.mk "id" "INTEGER" false false;
         Column.mk "legacy" "TEXT" true false ]
       [ "FOREIGN KEY (owner) REFERENCES owner(id)" ])
    (Table.mk "widget" [ Column.mk "id" "INTEGER" false true ] [])
  = [].
Proof.
  apply (current_extras_are_left_alone elements).
  - intros X. reflexivity.
  - apply (bool_decide_unpack _). vm_compute. exact I.
  - intros c Hc. apply list_elem_of_singleton in Hc as ->.
    exists (Column.mk "id" "INTEGER" false false).
    split; [apply elem_of_cons; by left|]. repeat split.
  - intros fk Hfk. by apply elem_of_nil in Hfk.
Defined.

Lemma flat_map_singletons {A B} (f : A -> list B) (g : A -> B) (l : list A) :
  (forall x, x ∈ l -> f x = [g x]) -> flat_map f l = map g l.
Proof.
  induction l as [|x l IH]; intros Hf; [done|]. simpl.
  rewrite Hf by (apply elem_of_cons; by left). simpl. f_equal.
  apply IH. intros y Hy. apply Hf. apply elem_of_cons. by right.
Qed.

Lemma new_foreign_keys_subset set_iter current new :
  iterates_sets set_iter ->
  (forall fk, fk ∈ Table.foreign_keys new -> fk ∈ Table.foreign_keys current) ->
  set_iter (new_foreign_keys new current) = [].
Proof.
  intros Hiter Hfks.
  assert (new_foreign_keys new current = ∅) as ->;
    [|by apply iterates_sets_empty].
  apply set_eq. intros fk. unfold new_foreign_keys.
  rewrite elem_of_difference, !elem_of_list_to_set, elem_of_empty.
  specialize (Hfks fk). tauto.
Qed.

Lemma column_differs_refl c : column_differs c c = false.
Proof. unfold column_differs. by rewrite String.eqb_refl, Bool.eqb_reflx. Qed.

(** X12. The column-add scenario: when the declared table has the columns of
    the current table followed by further columns, under pairwise
    distinct names and with no new foreign key, the statements are
    exactly one ADD COLUMN per further column, in declaration order. *)
Theorem appended_columns_are_added set_iter current new extra :
  iterates_sets set_iter ->
  NoDup (map Column.name (Table.columns new)) ->
  Table.columns new = Table.columns current ++ extra ->
  (forall fk, fk ∈ Table.foreign_keys new -> fk ∈ Table.foreign_keys current) ->
  _alter_table_statements set_iter current new
  = map (fun c => add_column_sql (Table.name current) (Column.name c) c) extra.
Proof.
  intros Hiter Hnd Hcols Hfks. rewrite (alter_statements_NoDup _ _ _ Hnd).
  rewrite (new_foreign_keys_subset _ _ _ Hiter Hfks). simpl.
  rewrite Hcols in *. rewrite map_app in Hnd.
  apply NoDup_app in Hnd as (Hcur & Hdis & _).
  assert (forall c, c ∈ extra ->
            cols_by_name (Table.columns current) !! Column.name c = None)
    as Hextra.
  { intros c Hc. apply cols_by_name_None. intros Hin. apply (Hdis _ Hin).
    by apply list_elem_of_In, in_map, list_elem_of_In. }
  rewrite !flat_map_app.
  rewrite (flat_map_nil _ (Table.columns current));
    [|intros c Hc; by rewrite (cols_by_name_elem_of _ _ Hcur Hc)].
  rewrite (flat_map_nil _ (Table.columns current));
    [|intros c Hc; by rewrite (cols_by_name_elem_of _ _ Hcur Hc),
                         column_differs_refl].
  rewrite (flat_map_singletons _
             (fun c => add_column_sql (Table.name current) (Column.name c) c)
             extra);
    [|intros c Hc; by rewrite (Hextra c Hc)].
  rewrite (flat_map_nil _ extra); [|intros c Hc; by rewrite (Hextra c Hc)].
  simpl. by rewrite app_nil_r.
Qed.

Lemma appended_columns_are_added_witness :
  _alter_table_statements elements
    (Table.mk "t" [ Column.mk "id" "SERIAL" false true;
                    Column.mk "name" "TEXT" true false ] [])
    (Table.mk "t" [ Column.mk "id" "SERIAL" false true;
                    Column.mk "name" "TEXT" true false;
                    Column.mk "age" "INTEGER" true false ] [])
  = [ "ALTER TABLE t ADD COLUMN age INTEGER NULL;" ].
Proof.
  apply (appended_columns_are_added elements
           (Table.mk "t" [ Column.mk "id" "SERIAL" false true;
                           Column.mk "name" "TEXT" true false ] [])
           (Table.mk "t" [ Column.mk "id" "SERIAL" false true;
                           Column.mk "name" "TEXT" true false;
                           Column.mk "age" "INTEGER" true false ] [])
           [ Column.mk "age" "INTEGER" true false ]).
  - intros X. reflexivity.
  - apply (bool_decide_unpack _). vm_compute. exact I.
  - reflexivity.
  - intros fk Hfk. exact Hfk.
Defined.

Lemma of_nat_inj i j : Str.of_nat i = Str.of_nat j -> i = j.
Proof.
  unfold Str.of_nat. intros H.
  apply (f_equal NilEmpty.uint_of_string) in H.
  rewrite !NilEmpty.usu in H. injection H as H.
  apply (f_equal Nat.of_uint) in H. by rewrite !Unsigned.of_to in H.
Qed.

Lemma uint_no_space u :
  Str.has_char " " (NilEmpty.string_of_uint u) = false.
Proof. induction u; simpl; done. Qed.

Lemma app_sep_inj c d1 d2 r1 r2 :
  Str.has_char c d1 = false -> Str.has_char c d2 = false ->
  d1 +:+ String c r1 = d2 +:+ String c r2 -> d1 = d2.
Proof.
  revert d2. induction d1 as [|x d1 IH]; intros [|y d2]; simpl; try done.
  - intros _ Hc. rewrite string_app_nil, string_app_cons. intros [= -> _].
    by rewrite Ascii.eqb_refl in Hc.
  - intros Hc _. rewrite string_app_nil, string_app_cons. intros [= -> _].
    by rewrite Ascii.eqb_refl in Hc.
  - intros [_ H1]%orb_false_elim [_ H2]%orb_false_elim.
    rewrite !string_app_cons. intros [= -> H]. f_equal. by apply IH.
Qed.

(** X13. Within the statements for one existing table, the ADD CONSTRAINT
    statements come last, one for each new foreign key in iteration
    order, and the number in the constraint name is the position of the
    statement in that table's list; two such statements with different
    numbers differ. *)
Theorem constraint_numbers_are_positions set_iter current new :
  (exists column_statements,
     _alter_table_statements set_iter current new
     = column_statements
       ++ imap (fun j fk =>
                  add_constraint_sql (Table.name current)
                    (length column_statements + j) fk)
            (set_iter (new_foreign_keys new current))
     /\ Forall (fun s =>
                  exists c,
                    s = add_column_sql (Table.name current) (Column.name c) c
                    \/ s = alter_column_sql (Table.name current)
                           (Column.name c) c)
          column_statements)
  /\ (forall i j fk fk',
        add_constraint_sql (Table.name current) i fk
        = add_constraint_sql (Table.name current) j fk' ->
        i = j).
Proof.
  split.
  - unfold _alter_table_statements. rewrite fold_add_fk_numbered.
    eexists. split; [reflexivity|].
    apply Forall_app. split; apply Forall_forall; intros s Hs;
      apply list_elem_of_In, in_flat_map in Hs as ([k c] & Hkc & Hs);
      apply list_elem_of_In, of_list_entry in Hkc as [-> _];
      destruct (cols_by_name (Table.columns current) !! Column.name c) as [cc|];
      simpl in Hs; try done.
    + destruct Hs as [<-|[]]. exists c. by left.
    + destruct (negb _ || negb _); [|done].
      destruct Hs as [<-|[]]. exists c. by right.
  - intros i j fk fk' H. unfold add_constraint_sql in H.
    do 5 apply String.app_inj in H.
    apply of_nat_inj.
    eapply (app_sep_inj " "); [apply uint_no_space..|exact H].
Qed.

End AlterTableScenarios.

(** ** Live schema reader *)

Section CurrentSchema.
Import SchemaManager DatabaseSchema.

Lemma current_schema_lookup_aux db_tables column_rows foreign_key_rows k :
  _get_current_schema db_tables column_rows foreign_key_rows !! k
  = if decide (k ∈ db_tables)
    then Some (Table.mk k (map column_of_row (column_rows k))
                 (map foreign_key_of_row (foreign_key_rows k)))
    else None.
Proof.
  unfold _get_current_schema.
  change (@None Table) with ((∅ : gmap string Table) !! k).
  generalize (∅ : gmap string Table).
  induction db_tables as [|x db_tables IH]; intros m.
  - simpl. destruct (decide (k ∈ [])) as [Hin|_]; [|done].
    by apply elem_of_nil in Hin.
  - change (foldl ?f m (x :: db_tables)) with (foldl f (f m x) db_tables).
    rewrite IH. destruct (decide (k ∈ db_tables)) as [Hin|Hnin].
    + destruct (decide (k ∈ x :: db_tables)) as [_|Hn]; [done|].
      exfalso. apply Hn. apply elem_of_cons. by right.
    + destruct (decide (k = x)) as [->|Hne].
      * destruct (decide (x ∈ x :: db_tables)) as [_|Hn].
        -- by rewrite lookup_insert_eq.
        -- exfalso. apply Hn. apply elem_of_cons. by left.
      * destruct (decide (k ∈ x :: db_tables)) as [[?|?]%elem_of_cons|_];
          [done..|].
        by rewrite lookup_insert_ne.
Qed.

(** X14. The current model has an entry exactly for the table names the
    database lists; the entry of a name holds that name, the columns read
    from its column rows (type upper-cased, nullable when the row says
    YES) and one foreign-key text per foreign-key row. *)
Theorem current_schema_lookup db_tables column_rows foreign_key_rows k :
  _get_current_schema db_tables column_rows foreign_key_rows !! k
  = if decide (k ∈ db_tables)
    then Some (Table.mk k (map column_of_row (column_rows k))
                 (map foreign_key_of_row (foreign_key_rows k)))
    else None.
Proof. apply current_schema_lookup_aux. Qed.

Lemma column_of_row_reports c row :
  row_reports c row ->
  Column.name (column_of_row row) = Column.name c
  /\ Column.data_type (column_of_row row) = Column.data_type c
  /\ Column.is_nullable (column_of_row row) = Column.is_nullable c.
Proof.
  intros (Hname & Hty & Hnull). unfold column_of_row. simpl.
  rewrite Hname, Hty, Hnull. by destruct (Column.is_nullable c).
Qed.

(** X15. Reading back what was declared: if the database lists the table,
    reports one row for each declared column (same name, the declared type
    in any letter case, YES or NO as declared) with pairwise distinct
    names, and one foreign-key row for each declared foreign key, then
    reconciling the declared table against the model read from the
    database gives no statements. *)
Theorem read_back_table_needs_no_statements set_iter
    db_tables column_rows foreign_key_rows t :
  iterates_sets set_iter ->
  Table.name t ∈ db_tables ->
  NoDup (map column_name (column_rows (Table.name t))) ->
  Forall2 row_reports (Table.columns t) (column_rows (Table.name t)) ->
  (forall fk, fk ∈ Table.foreign_keys t ->
     exists row, row ∈ foreign_key_rows (Table.name t)
                 /\ foreign_key_of_row row = fk) ->
  table_statements set_iter
    (_get_current_schema db_tables column_rows foreign_key_rows)
    (Table.name t, t)
  = [].
Proof.
  intros Hiter Hin Hnd Hrows Hfks. unfold table_statements. simpl.
  rewrite current_schema_lookup_aux, decide_True by done.
  apply current_extras_are_left_alone_aux; simpl; [done| | |].
  - replace (map Column.name (map column_of_row (column_rows (Table.name t))))
      with (map column_name (column_rows (Table.name t))); [done|].
    by rewrite map_map.
  - intros c Hc. apply list_elem_of_lookup in Hc as [i Hi].
    destruct (Forall2_lookup_l _ _ _ _ _ Hrows Hi) as (row & Hrow & Hrep).
    exists (column_of_row row). split.
    + apply list_elem_of_In, in_map, list_elem_of_In.
      by eapply list_elem_of_lookup_2.
    + by apply column_of_row_reports.
  - intros fk Hfk. destruct (Hfks fk Hfk) as (row & Hrow & <-).
    by apply list_elem_of_In, in_map, list_elem_of_In.
Qed.

Lemma read_back_table_needs_no_statements_witness :
  table_statements elements
    (_get_current_schema [ "widget_tags" ]
       (fun _ =>
          [ mkColumnRow "id" "integer" "NO" true;
            mkColumnRow "parent_id" "bigint" "NO" false;
            mkColumnRow "value" "text" "NO" false ])
       (fun _ =>
          [ mkForeignKeyRow "fk_widget_tags" "parent_id" "widget" "id" ]))
    ("widget_tags",
     Table.mk "widget_tags"
       [ Column.mk "id" "INTEGER" false true;
         Column.mk "parent_id" "BIGINT" false false;
         Column.mk "value" "TEXT" false false ]
       [ "FOREIGN KEY (parent_id) REFERENCES widget(id)" ])
  = [].
Proof.
  apply (read_back_table_needs_no_statements elements [ "widget_tags" ]
           (fun _ =>
              [ mkColumnRow "id" "integer" "NO" true;
                mkColumnRow "parent_id" "bigint" "NO" false;
                mkColumnRow "value" "text" "NO" false ])
           (fun _ =>
              [ mkForeignKeyRow "fk_widget_tags" "parent_id" "widget" "id" ])
           (Table.mk "widget_tags"
              [ Column.mk "id" "INTEGER" false true;
                Column.mk "parent_id" "BIGINT" false false;
                Column.mk "value" "TEXT" false false ]
              [ "FOREIGN KEY (parent_id) REFERENCES widget(id)" ])).
  - intros X. reflexivity.
  - apply elem_of_cons. by left.
  - apply (bool_decide_unpack _). vm_compute. exact I.
  - repeat constructor.
  - intros fk Hfk. apply list_elem_of_singleton in Hfk as ->.
    eexists. split; [apply elem_of_cons; by left|reflexivity].
Defined.

End CurrentSchema.

Section TypeDrift.
Import SchemaManager DatabaseSchema.

(** X16. Type drift: when the declared column names are pairwise distinct
    and so are the reported ones, the database lists the table and
    reports, for a declared column, a row of the same name whose type,
    upper-cased, is not the declared type, the statements for the table
    contain the ALTER COLUMN statement for that column. This is so for a
    declared type SERIAL reported as integer. *)
Theorem reported_type_mismatch_alters_column set_iter
    db_tables column_rows foreign_key_rows t c row :
  iterates_sets set_iter ->
  Table.name t ∈ db_tables ->
  NoDup (map Column.name (Table.columns t)) ->
  NoDup (map column_name (column_rows (Table.name t))) ->
  c ∈ Table.columns t ->
  row ∈ column_rows (Table.name t) ->
  column_name row = Column.name c ->
  Str.upper (data_type row) <> Column.data_type c ->
  alter_column_sql (Table.name t) (Column.name c) c
  ∈ table_statements set_iter
      (_get_current_schema db_tables column_rows foreign_key_rows)
      (Table.name t, t).
Proof.
  intros Hiter Hin Hnew Hrows Hc Hrow Hname Hty.
  unfold table_statements. simpl.
  rewrite current_schema_lookup_aux.
  destruct (decide (Table.name t ∈ db_tables)); [|done].
  set (current := Table.mk (Table.name t)
                    (map column_of_row (column_rows (Table.name t)))
                    (map foreign_key_of_row (foreign_key_rows (Table.name t)))).
  assert (NoDup (map Column.name (Table.columns current))) as Hcur.
  { simpl. by rewrite map_map. }
  destruct (alter_statements_complete_aux set_iter current t Hiter Hnew Hcur)
    as (_ & Halter & _).
  apply (Halter c (column_of_row row)); [done| |done|].
  - simpl. by apply list_elem_of_In, in_map, list_elem_of_In.
  - unfold column_differs, column_of_row. simpl.
    apply orb_true_iff. left. apply negb_true_iff, String.eqb_neq. congruence.
Qed.

Lemma reported_type_mismatch_alters_column_witness :
  alter_column_sql "widget" "id" (Column.mk "id" "SERIAL" false true)
  ∈ table_statements elements
      (_get_current_schema [ "widget" ]
         (fun _ => [ mkColumnRow "id" "integer" "NO" true ]) (fun _ => []))
      ("widget", Table.mk "widget" [ Column.mk "id" "SERIAL" false true ] []).
Proof.
  apply (reported_type_mismatch_alters_column elements [ "widget" ]
           (fun _ => [ mkColumnRow "id" "integer" "NO" true ]) (fun _ => [])
           (Table.mk "widget" [ Column.mk "id" "SERIAL" false true ] [])
           (Column.mk "id" "SERIAL" false true)
           (mkColumnRow "id" "integer" "NO" true)).
  - intros X. reflexivity.
  - apply elem_of_cons. by left.
  - apply (bool_decide_unpack _). vm_compute. exact I.
  - apply (bool_decide_unpack _). vm_compute. exact I.
  - apply elem_of_cons. by left.
  - apply elem_of_cons. by left.
  - reflexivity.
  - vm_compute. discriminate.
Defined.

End TypeDrift.

(** ** Runs over several files *)

Section RunsMore.
Import ProtobufToSQLConverter SchemaManager.
Context {DB : Type}.
Variable execute : DB -> string -> option DB.
Variable set_iter : gset string -> list string.
Variable current_tables : gmap string Table.

Lemma execute_all_app statements1 statements2 db :
  execute_all execute (statements1 ++ statements2) db
  = match execute_all execute statements1 db with
    | Some db' => execute_all execute statements2 db'
    | None => None
    end.
Proof.
  revert db. induction statements1 as [|s l IH]; intros db; [done|].
  simpl. destruct (execute db s); [apply IH|done].
Qed.



Lemma main_loop_accepted proto_files db db' migration_files :
  execute_all execute
    (flat_map (file_statements set_iter current_tables) proto_files) db
  = Some db' ->
  main_loop execute set_iter current_tables proto_files (mkConn db db)
    migration_files
  = (Returned
       (migration_files
        ++ (filter (fun f => file_statements set_iter current_tables f <> [])
              proto_files).*1),
     mkConn db' db').
Proof.
  revert db migration_files. induction proto_files as [|f proto_files IH];
    intros db migration_files Hexec.
  - simpl in *. injection Hexec as ->. by rewrite app_nil_r.
  - simpl in Hexec. rewrite execute_all_app in Hexec.
    simpl. unfold process_proto_file. simpl.
    fold (file_statements set_iter current_tables f) in *.
    destruct (file_statements set_iter current_tables f) as [|s l] eqn:E.
    + simpl in Hexec. rewrite filter_cons_False by (rewrite E; by intros H).
      by apply IH.
    + destruct (execute_all execute (s :: l) db) as [db1|]; [|done].
      rewrite filter_cons_True by (rewrite E; done). csimpl.
      change (commit {| committed := db; working := db1 |})
        with (mkConn db1 db1).
      rewrite (IH db1 (migration_files ++ [f.1]) Hexec).
      by rewrite <- app_assoc.
Qed.

(** X18. When the database accepts the statements of all the files, executed
    in file order from the starting state, the run returns, every file's
    statements are committed in that order, and the migration files
    returned are those of the files that gave rise to statements, in file
    order. *)
Theorem accepted_run_commits_everything proto_files db db' :
  execute_all execute
    (flat_map (file_statements set_iter current_tables) proto_files) db
  = Some db' ->
  main execute set_iter current_tables proto_files (mkConn db db)
  = (Returned
       (filter (fun f => file_statements set_iter current_tables f <> [])
          proto_files).*1,
     mkConn db' db').
Proof. intros Hexec. unfold main. by rewrite (main_loop_accepted _ _ _ _ Hexec). Qed.

End RunsMore.

Section RunsMoreExamples.
Import ProtobufToSQLConverter SchemaManager.


Lemma accepted_run_commits_everything_witness :
  main rejects_real elements ∅ [file_b] (mkConn [] [])
  = (Returned
       (filter (fun f => file_statements elements ∅ f <> []) [file_b]).*1,
     mkConn
       [ create_table_sql "b"
           [ "id SERIAL NOT NULL PRIMARY KEY"; "label TEXT NULL" ] ]
       [ create_table_sql "b"
           [ "id SERIAL NOT NULL PRIMARY KEY"; "label TEXT NULL" ] ]).
Proof.
  apply (accepted_run_commits_everything rejects_real elements ∅ [file_b] []).
  vm_compute. reflexivity.
Defined.

End RunsMoreExamples.

(** ** Migration transcript *)

Section Transcript.
Import SQLFileManager.

Lemma string_app_assoc (a b c : string) : (a +:+ b) +:+ c = a +:+ (b +:+ c).
Proof.
  induction a as [|x a IH]; [done|]. by rewrite !string_app_cons, IH.
Qed.

Lemma fold_left_lines statements f tail :
  fold_left (fun f statement => f +:+ statement +:+ Str.nl) statements f
  +:+ tail
  = f +:+ foldr (fun statement rest => statement +:+ Str.nl +:+ rest)
            tail statements.
Proof.
  revert f. induction statements as [|s l IH]; intros f; [done|].
  simpl. rewrite IH. by rewrite !string_app_assoc.
Qed.

Lemma prefix_self p b : String.prefix p (p +:+ b) = true.
Proof.
  induction p as [|c p IH]; [by destruct b|].
  rewrite string_app_cons. simpl. by destruct (ascii_dec c c).
Qed.

Lemma contains_self p b : Str.contains p (p +:+ b) = true.
Proof.
  destruct (p +:+ b) eqn:E; cbn [Str.contains]; rewrite <- E, prefix_self; done.
Qed.

Lemma contains_app_r p a b :
  Str.contains p b = true -> Str.contains p (a +:+ b) = true.
Proof.
  intros H. induction a as [|x a IH]; [done|].
  rewrite string_app_cons. cbn [Str.contains]. rewrite IH. apply orb_true_r.
Qed.

Lemma contains_lines tail statements s :
  s ∈ statements ->
  Str.contains s
    (foldr (fun statement rest => statement +:+ Str.nl +:+ rest)
       tail statements)
  = true.
Proof.
  induction statements as [|s0 l IH]; [by intros ?%elem_of_nil|].
  intros [->|Hin]%elem_of_cons; simpl.
  - apply contains_self.
  - do 2 apply contains_app_r. by apply IH.
Qed.

(** X19. The transcript: nothing is written for an empty statement list;
    otherwise the file is named after the time stamp and the proto name,
    and its text is the three header lines, BEGIN, every statement on a
    line of its own in the order given, and COMMIT; so every statement
    occurs in the text. *)
Theorem transcript_holds_every_statement
    timestamp generated_at proto_name statements :
  (write_migration timestamp generated_at proto_name statements = None
   <-> statements = [])
  /\ forall filename text,
       write_migration timestamp generated_at proto_name statements
       = Some (filename, text) ->
       filename = timestamp +:+ "_" +:+ proto_name +:+ "_migration.sql"
       /\ text
          = "-- Auto-generated migration from protobuf" +:+ Str.nl
            +:+ "-- Proto: " +:+ proto_name +:+ Str.nl
            +:+ "-- Generated at: " +:+ generated_at +:+ Str.nl +:+ Str.nl
            +:+ "BEGIN;" +:+ Str.nl +:+ Str.nl
            +:+ foldr (fun statement rest => statement +:+ Str.nl +:+ rest)
                  (Str.nl +:+ "COMMIT;" +:+ Str.nl) statements
       /\ forall statement,
            statement ∈ statements -> Str.contains statement text = true.
Proof.
  split.
  - by destruct statements.
  - intros filename text Hw.
    assert (text
            = "-- Auto-generated migration from protobuf" +:+ Str.nl
              +:+ "-- Proto: " +:+ proto_name +:+ Str.nl
              +:+ "-- Generated at: " +:+ generated_at +:+ Str.nl +:+ Str.nl
              +:+ "BEGIN;" +:+ Str.nl +:+ Str.nl
              +:+ foldr (fun statement rest => statement +:+ Str.nl +:+ rest)
                    (Str.nl +:+ "COMMIT;" +:+ Str.nl) statements
            /\ filename = timestamp +:+ "_" +:+ proto_name +:+ "_migration.sql")
      as [-> ->].
    { unfold write_migration in Hw. destruct statements as [|s l]; [done|].
      injection Hw as <- <-. split; [|done].
      rewrite fold_left_lines. rewrite string_app_nil.
      by rewrite !string_app_assoc. }
    split; [done|]. split; [done|].
    intros statement Hin. do 12 apply contains_app_r.
    by apply contains_lines.
Qed.

End Transcript.

(** ** Configuration *)

Section Configuration.
Import ConfigManager.
Context {V : Type}.

(** X20. [load_db_config] returns exactly when the configuration has a
    [database] section with the five settings; the result then has the
    five connection parameters, [dbname] holding the setting [name] and
    the other four holding the settings of their own names. It raises
    when the section or one of the settings is missing. *)
Theorem load_db_config_result (config : gmap string (gmap string V)) :
  match load_db_config config with
  | Some params =>
      exists database,
        config !! "database" = Some database
        /\ dom params
           = ({[ "dbname"; "user"; "password"; "host"; "port" ]} : gset string)
        /\ params !! "dbname" = database !! "name"
        /\ params !! "user" = database !! "user"
        /\ params !! "password" = database !! "password"
        /\ params !! "host" = database !! "host"
        /\ params !! "port" = database !! "port"
  | None =>
      config !! "database" = None
      \/ exists database setting,
           config !! "database" = Some database
           /\ setting ∈ [ "name"; "user"; "password"; "host"; "port" ]
           /\ database !! setting = None
  end.
Proof.
  unfold load_db_config.
  destruct (config !! "database") as [database|]; [|by left].
  destruct (database !! "name") as [name|] eqn:E1;
    [|right; exists database, "name"; split; [done|]; split; [|done];
      repeat constructor].
  destruct (database !! "user") as [user|] eqn:E2;
    [|right; exists database, "user"; split; [done|]; split; [|done];
      repeat constructor].
  destruct (database !! "password") as [password|] eqn:E3;
    [|right; exists database, "password"; split; [done|]; split; [|done];
      repeat constructor].
  destruct (database !! "host") as [host|] eqn:E4;
    [|right; exists database, "host"; split; [done|]; split; [|done];
      repeat constructor].
  destruct (database !! "port") as [port|] eqn:E5;
    [|right; exists database, "port"; split; [done|]; split; [|done];
      repeat constructor].
  exists database. split; [done|]. split.
  - rewrite !dom_insert_L, dom_singleton_L. set_solver.
  - rewrite E1, E2, E3, E4, E5. repeat split.
Qed.

End Configuration.

(** ** From source file to statements *)

Section Pipeline.
Import ProtobufToSQLConverter SchemaManager Writes.

Lemma lower_char_not_D c : Ascii.eqb "D" (Str.lower_char c) = false.
Proof. destruct c as [[] [] [] [] [] [] [] []]; reflexivity. Qed.

Lemma lower_has_no_D s : Str.has_char "D" (Str.lower s) = false.
Proof.
  induction s as [|c s IH]; [done|]. cbn [Str.lower Str.has_char].
  by rewrite lower_char_not_D, IH.
Qed.

Lemma contains_first_char c p s :
  Str.has_char c s = false -> Str.contains (String c p) s = false.
Proof.
  induction s as [|x s IH]; [done|]. cbn [Str.has_char Str.contains].
  intros [Hx Hs]%orb_false_elim. rewrite (IH Hs), orb_false_r.
  cbn [String.prefix]. destruct (ascii_dec c x) as [->|]; [|done].
  by rewrite Ascii.eqb_refl in Hx.
Qed.

Lemma drop_free_lower s : drop_free (Str.lower s).
Proof. apply contains_first_char, lower_has_no_D. Qed.

Lemma drop_free_sql_type ft : drop_free (sql_type ft).
Proof.
  unfold sql_type.
  assert (Forall drop_free TYPE_MAPPING.*2) as Hvalues
    by (repeat constructor).
  induction TYPE_MAPPING as [|[k v] d IH]; [done|].
  simpl. apply Forall_cons in Hvalues as [Hv Hd].
  destruct (String.eqb ft k); [done|]. by apply IH.
Qed.

Lemma drop_free_table_name_of stem message_name :
  drop_free (table_name_of (Str.lower stem) message_name).
Proof.
  unfold table_name_of.
  pose proof (drop_free_lower stem). pose proof (drop_free_lower message_name).
  destruct (String.eqb (Str.lower message_name) "root"); [done|].
  drop_free_chain.
Qed.

Lemma drop_free_scalar_columns body :
  (forall m ft f, Some (mkField m ft f) ∈ body -> drop_free f) ->
  Forall (fun c => drop_free (Column.name c) /\ drop_free (Column.data_type c))
    (scalar_columns body).
Proof.
  intros Hbody. apply Forall_forall. intros c Hc. unfold scalar_columns in Hc.
  apply list_elem_of_In, in_flat_map in Hc as (line & Hline & Hc).
  apply list_elem_of_In in Hline.
  destruct line as [[[[]|] ft f]|]; simpl in Hc; try done;
    destruct Hc as [<-|[]]; simpl;
    (split; [by eapply Hbody|apply drop_free_sql_type]).
Qed.

Lemma drop_free_written_tables stem messages k t :
  (forall msg m ft f,
     msg ∈ messages -> Some (mkField m ft f) ∈ message_body msg ->
     drop_free f) ->
  (k, t) ∈ writes (Str.lower stem) messages -> drop_free_table t.
Proof.
  intros Hnames Hin. unfold writes in Hin.
  apply list_elem_of_In, in_flat_map in Hin as (msg & Hmsg & Hin).
  apply list_elem_of_In in Hmsg, Hin. unfold message_writes in Hin.
  pose proof (drop_free_table_name_of stem (message_name msg)) as HP.
  apply elem_of_app in Hin as [Hin|Hin].
  - unfold body_writes in Hin.
    apply list_elem_of_In, in_flat_map in Hin as (line & Hline & Hin).
    apply list_elem_of_In in Hline.
    destruct line as [[[[]|] ft f]|]; simpl in Hin; try done.
    destruct Hin as [[= <- <-]|[]].
    pose proof (Hnames _ _ _ _ Hmsg Hline) as Hf.
    pose proof (drop_free_sql_type ft) as Hty.
    split; [|split]; simpl.
    + drop_free_chain.
    + repeat constructor; done.
    + repeat constructor. drop_free_chain.
  - apply list_elem_of_singleton in Hin as [= _ ->].
    split; [|split]; simpl; [done| |done].
    constructor; [done|]. apply drop_free_scalar_columns.
    intros m ft f. by apply Hnames.
Qed.

(** X21. For the statements generated from a source file: when no field name
    of the file contains the text DROP and every current table is stored
    under its own name (as the schema reader stores it), no statement
    contains DROP, whatever the file stem, the message names and the
    declared types are; in particular none contains DROP TABLE, DROP
    COLUMN or DROP CONSTRAINT. *)
Theorem file_statements_never_drop set_iter current_tables stem messages :
  iterates_sets set_iter ->
  (forall k t, current_tables !! k = Some t -> Table.name t = k) ->
  (forall msg m ft f,
     msg ∈ messages -> Some (mkField m ft f) ∈ message_body msg ->
     drop_free f) ->
  forall statement,
    statement ∈ generate_migration set_iter current_tables
                  (parse_proto_file stem messages) ->
    drop_free statement
    /\ Str.contains "DROP TABLE" statement = false
    /\ Str.contains "DROP COLUMN" statement = false
    /\ Str.contains "DROP CONSTRAINT" statement = false.
Proof.
  intros Hiter Hcur Hnames statement Hin.
  assert (drop_free statement) as Hfree.
  { unfold generate_migration in Hin.
    apply list_elem_of_In, in_flat_map in Hin as ([k t] & Hkt & Hin).
    apply list_elem_of_In in Hkt, Hin.
    rewrite parse_proto_file_writes in Hkt.
    apply odict_elem_of_set_all in Hkt as [Hkt|Hkt];
      [|by apply elem_of_nil in Hkt].
    pose proof (drop_free_written_tables _ _ _ _ Hnames Hkt) as Ht.
    pose proof (writes_name_key _ _ _ _ Hkt) as Hname.
    unfold table_statements in Hin. simpl in Hin.
    destruct (current_tables !! k) as [t'|] eqn:Hk.
    - eapply (proj1 (Forall_forall _ _)); [|exact Hin].
      apply drop_free_alter_table_statements; [done| |done].
      rewrite (Hcur _ _ Hk), <- Hname. by destruct Ht.
    - eapply (proj1 (Forall_forall _ _)); [|exact Hin].
      by apply drop_free_create_table_statements. }
  split; [done|]. by apply drop_free_phrases.
Qed.

Lemma file_statements_never_drop_witness :
  drop_free
    "ALTER TABLE widget_tags ADD CONSTRAINT fk_widget_tags FOREIGN KEY (parent_id) REFERENCES widget(id);"
  /\ Str.contains "DROP TABLE"
       "ALTER TABLE widget_tags ADD CONSTRAINT fk_widget_tags FOREIGN KEY (parent_id) REFERENCES widget(id);"
     = false
  /\ Str.contains "DROP COLUMN"
       "ALTER TABLE widget_tags ADD CONSTRAINT fk_widget_tags FOREIGN KEY (parent_id) REFERENCES widget(id);"
     = false
  /\ Str.contains "DROP CONSTRAINT"
       "ALTER TABLE widget_tags ADD CONSTRAINT fk_widget_tags FOREIGN KEY (parent_id) REFERENCES widget(id);"
     = false.
Proof.
  apply (file_statements_never_drop elements ∅ "Widget"
           [ mkMessage "Root" [ Some (mkField (Some repeated) "string" "tags") ] ]).
  - intros X. reflexivity.
  - intros k t Hk. by rewrite lookup_empty in Hk.
  - intros msg m ft f Hmsg Hf. apply list_elem_of_singleton in Hmsg as ->.
    simpl in Hf. apply list_elem_of_singleton in Hf as [= -> -> ->].
    reflexivity.
  - vm_compute. apply elem_of_cons. right. apply elem_of_cons. by left.
Defined.

End Pipeline.

(** ** The text of a column definition *)

Section ColumnDefinition.
Import SchemaManager.

Lemma rstrip_app s t :
  Str.rstrip t <> "" ->
  Str.rstrip (s +:+ t) = s +:+ Str.rstrip t /\ Str.rstrip (s +:+ t) <> "".
Proof.
  intros Ht. induction s as [|c s [IH Hne]]; [done|].
  rewrite !string_app_cons. cbn [Str.rstrip].
  destruct (Str.rstrip (s +:+ t)) as [|x r] eqn:E; [done|].
  split; [by rewrite <- IH|done].
Qed.

(** X22. A column whose name does not start with white space is defined by
    its name, its type and NULL or NOT NULL, separated by single blanks,
    followed by PRIMARY KEY for a key column; [strip] removes the blank
    that the template leaves at the end for the other columns. *)
Theorem column_def_text c x n :
  Column.name c = String x n -> Str.is_space x = false ->
  column_def c
  = Column.name c +:+ " " +:+ Column.data_type c +:+ " "
    +:+ nullable_kw (Column.is_nullable c)
    +:+ (if Column.is_primary_key c then " PRIMARY KEY" else "").
Proof.
  intros Hname Hx. unfold column_def. cbv zeta. unfold Str.strip.
  assert (forall R, Str.lstrip (Column.name c +:+ R) = Column.name c +:+ R)
    as ->.
  { intros R. rewrite Hname, string_app_cons. cbn [Str.lstrip]. by rewrite Hx. }
  set (T := nullable_kw (Column.is_nullable c) +:+ " "
            +:+ (if Column.is_primary_key c then "PRIMARY KEY" else "")).
  assert (Str.rstrip T
          = nullable_kw (Column.is_nullable c)
            +:+ (if Column.is_primary_key c then " PRIMARY KEY" else "")
          /\ Str.rstrip T <> "") as [HT HT'].
  { unfold T. by destruct (Column.is_nullable c), (Column.is_primary_key c). }
  destruct (rstrip_app " " T HT') as [E1 N1].
  destruct (rstrip_app (Column.data_type c) _ N1) as [E2 N2].
  destruct (rstrip_app " " _ N2) as [E3 N3].
  destruct (rstrip_app (Column.name c) _ N3) as [E4 _].
  by rewrite E4, E3, E2, E1, HT.
Qed.

Lemma column_def_text_witness :
  column_def (Column.mk "age" "DOUBLE PRECISION" true false)
  = "age" +:+ " " +:+ "DOUBLE PRECISION" +:+ " " +:+ nullable_kw true +:+ "".
Proof.
  apply (column_def_text (Column.mk "age" "DOUBLE PRECISION" true false)
           "a" "ge"); reflexivity.
Defined.

End ColumnDefinition.

Section MoreWitnesses.
Import SchemaManager SQLFileManager.

Lemma constraint_numbers_are_positions_witness :
  exists column_statements,
    _alter_table_statements elements
      (Table.mk "t" [] [])
      (Table.mk "t" [ Column.mk "age" "INTEGER" true false ]
         [ "FOREIGN KEY (a) REFERENCES x(id)" ])
    = column_statements
      ++ imap (fun j fk =>
                 add_constraint_sql "t" (length column_statements + j) fk)
           (elements
              (new_foreign_keys
                 (Table.mk "t" [ Column.mk "age" "INTEGER" true false ]
                    [ "FOREIGN KEY (a) REFERENCES x(id)" ])
                 (Table.mk "t" [] [])))
    /\ Forall (fun s =>
                 exists c,
                   s = add_column_sql "t" (Column.name c) c
                   \/ s = alter_column_sql "t" (Column.name c) c)
         column_statements.
Proof.
  exact (proj1 (constraint_numbers_are_positions elements
                  (Table.mk "t" [] [])
                  (Table.mk "t" [ Column.mk "age" "INTEGER" true false ]
                     [ "FOREIGN KEY (a) REFERENCES x(id)" ]))).
Defined.

Lemma transcript_holds_every_statement_witness :
  Str.contains "ALTER TABLE t ADD COLUMN age INTEGER NULL;"
    ("-- Auto-generated migration from protobuf" +:+ Str.nl
     +:+ "-- Proto: " +:+ "t" +:+ Str.nl
     +:+ "-- Generated at: " +:+ "2024-01-01T00:00:00" +:+ Str.nl +:+ Str.nl
     +:+ "BEGIN;" +:+ Str.nl +:+ Str.nl
     +:+ foldr (fun statement rest => statement +:+ Str.nl +:+ rest)
           (Str.nl +:+ "COMMIT;" +:+ Str.nl)
           [ "ALTER TABLE t ADD COLUMN age INTEGER NULL;" ])
  = true.
Proof.
  refine (proj2 (proj2
            (proj2 (transcript_holds_every_statement "20240101_000000"
                      "2024-01-01T00:00:00" "t"
                      [ "ALTER TABLE t ADD COLUMN age INTEGER NULL;" ])
               _ _ _)) _ _).
  - reflexivity.
  - apply list_elem_of_singleton. reflexivity.
Defined.

End MoreWitnesses.

(** ** Statements never remove anything *)

Section Phrases.














End Phrases.





Section PhraseTemplates.
Import ProtobufToSQLConverter SchemaManager.




End PhraseTemplates.

Section PhraseStatements.
Import ProtobufToSQLConverter SchemaManager Writes.



















End PhraseStatements.

Section NeverRemoves.
Import ProtobufToSQLConverter SchemaManager DatabaseSchema Writes.










End NeverRemoves.
